(** * go.geo: the Bound type of bound.go

    A shallow embedding of [bound.go] and a verification of its geometric
    predicates, constructors and GeoHash decoders.

    - [float64] values are IEEE-754 binary64 numbers, modelled by the
      Standard Library's [spec_float] with [prec = 53] and [emax = 1024];
      Go's comparison operators are [SFltb], [SFleb] and [SFeqb], its
      arithmetic is [SFadd], [SFsub], [SFmul] and [SFdiv] (round to nearest
      even).
    - [uint64] and [int64] values are integers of [Z] with the wrap-around
      written out.
    - A [*Bound] is modelled by its value: every constructor of bound.go
      allocates fresh corner points and every accessor returns a copy, so a
      bound is the sole owner of its two corners.  Methods that mutate the
      receiver and return it ([Extend], [Pad]) become functions returning
      the new state of the receiver.  A bound passed as an argument is a
      bound of its own; the call of [Union] with the receiver as its
      argument, which reads corners that it has just changed, is
      [Union_self].
    - A Go panic is the [Panics] outcome of a [result].
    - A GeoHash string is given by the runes that [range] yields, a loop
      that may not end by a fuel argument and an [option] result.
    - What bound.go uses and does not declare (the Point type, the
      projection, the constants and the angle conversions) is modelled
      from the specification, or is a parameter of a section. *)

From Stdlib Require Import ZArith Bool List Lia String Ascii.
From Stdlib Require Import Floats.SpecFloat.
Import ListNotations.

Local Open Scope Z_scope.

(* ------------------------------------------------------------------ *)
(** ** float64 *)

Module F64.

Definition prec : Z := 53.
Definition emax : Z := 1024.

Definition float64 : Set := spec_float.

(** The float64 nearest to [m * 2^e]; [of_Z m 0] is the literal [m]. *)
Definition of_Z (m e : Z) : float64 := binary_normalize prec emax m e false.

Definition NaN : float64 := S754_nan.
Definition Inf (negative : bool) : float64 := S754_infinity negative.

Definition add (x y : float64) : float64 := SFadd prec emax x y.
Definition sub (x y : float64) : float64 := SFsub prec emax x y.
Definition mul (x y : float64) : float64 := SFmul prec emax x y.
Definition div (x y : float64) : float64 := SFdiv prec emax x y.

(** Go's [x < y], [x <= y], [x == y]; [x > y] is [ltb y x] and
    [x >= y] is [leb y x]. *)
Definition ltb (x y : float64) : bool := SFltb x y.
Definition leb (x y : float64) : bool := SFleb x y.
Definition eqb (x y : float64) : bool := SFeqb x y.

(** math.IsNaN, math.IsInf(x, -1), math.IsInf(x, 1), math.Signbit. *)
Definition IsNaN (x : float64) : bool :=
  match x with S754_nan => true | _ => false end.

Definition IsNegInf (x : float64) : bool :=
  match x with S754_infinity true => true | _ => false end.

Definition IsPosInf (x : float64) : bool :=
  match x with S754_infinity false => true | _ => false end.

Definition Signbit (x : float64) : bool :=
  match x with
  | S754_zero s | S754_infinity s | S754_finite s _ _ => s
  | S754_nan => false
  end.

Definition is_zero (x : float64) : bool := eqb x (S754_zero false).

(** math.Min of the Go standard library:
    Min(x, -Inf) = Min(-Inf, x) = -Inf; Min(x, NaN) = Min(NaN, x) = NaN;
    Min(-0, +-0) = Min(+-0, -0) = -0; otherwise the smaller argument. *)
Definition Min (x y : float64) : float64 :=
  if IsNegInf x || IsNegInf y then Inf true
  else if IsNaN x || IsNaN y then NaN
  else if is_zero x && eqb x y then (if Signbit x then x else y)
  else if ltb x y then x else y.

(** math.Max of the Go standard library:
    Max(x, +Inf) = Max(+Inf, x) = +Inf; Max(x, NaN) = Max(NaN, x) = NaN;
    Max(+0, +-0) = Max(+-0, +0) = +0; Max(-0, -0) = -0; otherwise the
    larger argument. *)
Definition Max (x y : float64) : float64 :=
  if IsPosInf x || IsPosInf y then Inf false
  else if IsNaN x || IsNaN y then NaN
  else if is_zero x && eqb x y then (if Signbit x then y else x)
  else if ltb y x then x else y.

End F64.

Import F64.

(** Integer literals of the examples. *)
Definition lit (n : Z) : float64 := of_Z n 0.

(* ------------------------------------------------------------------ *)
(** ** Point *)

(** Modelled from the spec: the Point type ([point.go] is not part of the
    sources at hand).  A point is two ordered scalar coordinates, axis 0
    (X or longitude) and axis 1 (Y or latitude); the bound code indexes it
    as [p[0]] and [p[1]]. *)
Record Point : Set := mkPoint { X : float64; Y : float64 }.

Module PointOps.

(** Modelled from the spec: the named accessors, Lng/X and Lat/Y. *)
Definition Lng (p : Point) : float64 := X p.
Definition Lat (p : Point) : float64 := Y p.

(** Modelled from the spec: the setters; each returns the updated point. *)
Definition SetX (p : Point) (x : float64) : Point := mkPoint x (Y p).
Definition SetY (p : Point) (y : float64) : Point := mkPoint (X p) y.
Definition SetLng (p : Point) (x : float64) : Point := SetX p x.
Definition SetLat (p : Point) (y : float64) : Point := SetY p y.

(** Modelled from the spec: [Clone] returns an independent copy. *)
Definition Clone (p : Point) : Point := mkPoint (X p) (Y p).

(** Modelled from the spec: [Equals] is exact equality ([==]) on both
    axes, without epsilon. *)
Definition Equals (p q : Point) : bool :=
  eqb (X p) (X q) && eqb (Y p) (Y q).

(** The zero value [&Point{}]. *)
Definition zero : Point := mkPoint (S754_zero false) (S754_zero false).

End PointOps.

(* ------------------------------------------------------------------ *)
(** ** Bound *)

Record Bound : Set := mkBound { sw : Point; ne : Point }.

(** A panic, or a normal return. *)
Inductive result (A : Type) : Type :=
| Returns (a : A)
| Panics (msg : string).
Arguments Returns {A} a.
Arguments Panics {A} msg.

Definition NewBound (west east south north : float64) : Bound :=
  {| sw := mkPoint (Min east west) (Min north south);
     ne := mkPoint (Max east west) (Max north south) |}.

Definition Contains (b : Bound) (point : Point) : bool :=
  if ltb (Y point) (Y (sw b)) || ltb (Y (ne b)) (Y point) then false
  else if ltb (X point) (X (sw b)) || ltb (X (ne b)) (X point) then false
  else true.

Definition Extend (b : Bound) (point : Point) : Bound :=
  if Contains b point then b
  else
    let sw1 := PointOps.SetX (sw b) (Min (X (sw b)) (X point)) in
    let ne1 := PointOps.SetX (ne b) (Max (X (ne b)) (X point)) in
    let sw2 := PointOps.SetY sw1 (Min (Y sw1) (Y point)) in
    let ne2 := PointOps.SetY ne1 (Max (Y ne1) (Y point)) in
    {| sw := sw2; ne := ne2 |}.

Definition NewBoundFromPoints (corner oppositeCorner : Point) : Bound :=
  let b := {| sw := PointOps.Clone corner; ne := PointOps.Clone corner |} in
  Extend b oppositeCorner.

Definition SouthWest (b : Bound) : Point := PointOps.Clone (sw b).
Definition NorthEast (b : Bound) : Point := PointOps.Clone (ne b).

Definition SouthEast (b : Bound) : Point :=
  PointOps.SetLng (PointOps.SetLat PointOps.zero (PointOps.Lat (sw b)))
                  (PointOps.Lng (ne b)).

Definition NorthWest (b : Bound) : Point :=
  PointOps.SetLng (PointOps.SetLat PointOps.zero (PointOps.Lat (ne b)))
                  (PointOps.Lng (sw b)).

(** [other] is a bound of its own: the calls of [Extend] leave it as it
    is, and its four corners are those it had before the call.  In the
    call b.Union(b) every [Extend] changes the bound whose corners are
    read next: that call is [Union_self]. *)
Definition Union (b other : Bound) : Bound :=
  let b1 := Extend b (SouthWest other) in
  let b2 := Extend b1 (NorthWest other) in
  let b3 := Extend b2 (SouthEast other) in
  Extend b3 (NorthEast other).

Definition Union_self (b : Bound) : Bound :=
  let b1 := Extend b (SouthWest b) in
  let b2 := Extend b1 (NorthWest b1) in
  let b3 := Extend b2 (SouthEast b2) in
  Extend b3 (NorthEast b3).

Definition Intersects (b bound : Bound) : bool :=
  if Contains bound (sw b) || Contains bound (ne b)
     || Contains bound (SouthEast b) || Contains bound (NorthWest b)
  then true
  else if Contains b (sw bound) then true
  else false.

Definition Center (b : Bound) : Point :=
  let p := PointOps.zero in
  let p := PointOps.SetX p (div (add (X (ne b)) (X (sw b))) (lit 2)) in
  PointOps.SetY p (div (add (Y (ne b)) (Y (sw b))) (lit 2)).

Definition Pad (b : Bound) (amount : float64) : Bound :=
  let sw1 := PointOps.SetX (sw b) (sub (X (sw b)) amount) in
  let sw2 := PointOps.SetY sw1 (sub (Y sw1) amount) in
  let ne1 := PointOps.SetX (ne b) (add (X (ne b)) amount) in
  let ne2 := PointOps.SetY ne1 (add (Y ne1) amount) in
  {| sw := sw2; ne := ne2 |}.

Definition Height (b : Bound) : float64 := sub (Y (ne b)) (Y (sw b)).
Definition Width (b : Bound) : float64 := sub (X (ne b)) (X (sw b)).

Definition Empty (b : Bound) : bool :=
  leb (X (ne b)) (X (sw b)) || leb (Y (ne b)) (Y (sw b)).

Definition Equals (b c : Bound) : bool :=
  if PointOps.Equals (sw b) (sw c) && PointOps.Equals (ne b) (ne c)
  then true else false.

Definition Clone (b : Bound) : Bound := NewBoundFromPoints (sw b) (ne b).

(** The corner invariant of a well-formed bound, with Go's [<=]. *)
Definition normalized (b : Bound) : Prop :=
  leb (X (sw b)) (X (ne b)) = true /\ leb (Y (sw b)) (Y (ne b)) = true.

(** The axis-overlap test: the two boxes overlap or touch. *)
Definition overlaps (a b : Bound) : bool :=
  leb (X (sw a)) (X (ne b)) && leb (X (sw b)) (X (ne a))
  && leb (Y (sw a)) (Y (ne b)) && leb (Y (sw b)) (Y (ne a)).

(* ------------------------------------------------------------------ *)
(** ** The order of float64 *)

Section FloatOrder.

Lemma SFcompare_antisym (x y : float64) :
  SFcompare y x = option_map CompOpp (SFcompare x y).
Proof.
  destruct x as [sx|sx| |sx mx ex], y as [sy|sy| |sy my ey]; simpl;
    try reflexivity;
    try (destruct sx; reflexivity);
    try (destruct sy; reflexivity);
    try (destruct sx, sy; reflexivity).
  assert (Hm : Pos.compare_cont Eq my mx
               = CompOpp (Pos.compare_cont Eq mx my))
    by (rewrite Pos.compare_cont_antisym; reflexivity).
  destruct sx, sy; try reflexivity;
    rewrite (Z.compare_antisym ex ey), Hm;
    destruct (ex ?= ey); simpl; try reflexivity;
    destruct (Pos.compare_cont Eq mx my); reflexivity.
Qed.

Lemma SFcompare_refl (x : float64) :
  IsNaN x = false -> SFcompare x x = Some Eq.
Proof.
  destruct x as [s|s| |s m e]; simpl; intros H; try discriminate;
    try reflexivity.
  - destruct s; reflexivity.
  - rewrite Z.compare_refl.
    change (Pos.compare_cont Eq m m) with (Pos.compare m m).
    rewrite Pos.compare_refl. destruct s; reflexivity.
Qed.

Lemma SFcompare_nan (x y : float64) :
  SFcompare x y = None <-> IsNaN x = true \/ IsNaN y = true.
Proof.
  destruct x as [sx|sx| |sx mx ex], y as [sy|sy| |sy my ey]; simpl;
    split; intros H; try discriminate; try reflexivity; auto;
    try (destruct H; discriminate).
Qed.

(** Every float64 other than NaN has a key; the keys, ordered
    lexicographically, order the numbers as [SFcompare] does:
    -Inf, the negative numbers, the zeros, the positive numbers, +Inf. *)
Definition key (x : float64) : Z * Z * Z :=
  match x with
  | S754_infinity true => (-2, 0, 0)
  | S754_finite true m e => (-1, - e, Zneg m)
  | S754_zero _ | S754_nan => (0, 0, 0)
  | S754_finite false m e => (1, e, Zpos m)
  | S754_infinity false => (2, 0, 0)
  end.

Definition klt (k1 k2 : Z * Z * Z) : Prop :=
  let '(a1, b1, c1) := k1 in
  let '(a2, b2, c2) := k2 in
  a1 < a2 \/ (a1 = a2 /\ (b1 < b2 \/ (b1 = b2 /\ c1 < c2))).

Definition keq (k1 k2 : Z * Z * Z) : Prop :=
  let '(a1, b1, c1) := k1 in
  let '(a2, b2, c2) := k2 in
  a1 = a2 /\ b1 = b2 /\ c1 = c2.

Definition lex (k1 k2 : Z * Z * Z) : comparison :=
  let '(a1, b1, c1) := k1 in
  let '(a2, b2, c2) := k2 in
  match a1 ?= a2 with
  | Eq => match b1 ?= b2 with Eq => c1 ?= c2 | r => r end
  | r => r
  end.

Lemma SFcompare_key (x y : float64) :
  IsNaN x = false -> IsNaN y = false ->
  SFcompare x y = Some (lex (key x) (key y)).
Proof.
  destruct x as [sx|sx| |sx mx ex], y as [sy|sy| |sy my ey];
    intros Hx Hy; try discriminate;
    try (destruct sx); try (destruct sy); try reflexivity.
  cbn [SFcompare key lex]. change (-1 ?= -1) with Eq.
  rewrite Z.compare_opp, (Z.compare_antisym ex ey).
  destruct (ex ?= ey); reflexivity.
Qed.

Lemma lex_Lt (k1 k2 : Z * Z * Z) : lex k1 k2 = Lt <-> klt k1 k2.
Proof.
  destruct k1 as [[a1 b1] c1], k2 as [[a2 b2] c2]; unfold lex, klt.
  destruct (Z.compare_spec a1 a2), (Z.compare_spec b1 b2),
    (Z.compare_spec c1 c2); split; intros G; try discriminate;
    try reflexivity; lia.
Qed.

Lemma lex_Eq (k1 k2 : Z * Z * Z) : lex k1 k2 = Eq <-> keq k1 k2.
Proof.
  destruct k1 as [[a1 b1] c1], k2 as [[a2 b2] c2]; unfold lex, keq.
  destruct (Z.compare_spec a1 a2), (Z.compare_spec b1 b2),
    (Z.compare_spec c1 c2); split; intros G; try discriminate;
    try reflexivity; lia.
Qed.

Lemma lex_Gt (k1 k2 : Z * Z * Z) : lex k1 k2 = Gt <-> klt k2 k1.
Proof.
  destruct k1 as [[a1 b1] c1], k2 as [[a2 b2] c2]; unfold lex, klt.
  destruct (Z.compare_spec a1 a2), (Z.compare_spec b1 b2),
    (Z.compare_spec c1 c2); split; intros G; try discriminate;
    try reflexivity; lia.
Qed.

(** Go's comparisons, read on the keys.  A comparison with NaN is
    false. *)
Lemma ltb_true (x y : float64) :
  ltb x y = true <->
  IsNaN x = false /\ IsNaN y = false /\ klt (key x) (key y).
Proof.
  unfold ltb, SFltb.
  destruct (IsNaN x) eqn:Hx.
  { destruct x; try discriminate. simpl. split; [discriminate|].
    intros [H _]; discriminate. }
  destruct (IsNaN y) eqn:Hy.
  { destruct y; try discriminate. destruct x; simpl;
      (split; [discriminate|]); intros (_ & H & _); discriminate. }
  rewrite (SFcompare_key x y Hx Hy), <- lex_Lt.
  destruct (lex (key x) (key y)); split; intros H;
    try discriminate; auto; destruct H as (_ & _ & H); discriminate.
Qed.

Lemma leb_true (x y : float64) :
  leb x y = true <->
  IsNaN x = false /\ IsNaN y = false /\ ~ klt (key y) (key x).
Proof.
  unfold leb, SFleb.
  destruct (IsNaN x) eqn:Hx.
  { destruct x; try discriminate. simpl. split; [discriminate|].
    intros [H _]; discriminate. }
  destruct (IsNaN y) eqn:Hy.
  { destruct y; try discriminate. destruct x; simpl;
      (split; [discriminate|]); intros (_ & H & _); discriminate. }
  rewrite (SFcompare_key x y Hx Hy), <- lex_Gt.
  destruct (lex (key x) (key y)); split; intros H;
    try discriminate; auto; try (repeat split; discriminate);
    destruct H as (_ & _ & H); elim H; reflexivity.
Qed.

Lemma eqb_true (x y : float64) :
  eqb x y = true <->
  IsNaN x = false /\ IsNaN y = false /\ keq (key x) (key y).
Proof.
  unfold eqb, SFeqb.
  destruct (IsNaN x) eqn:Hx.
  { destruct x; try discriminate. simpl. split; [discriminate|].
    intros [H _]; discriminate. }
  destruct (IsNaN y) eqn:Hy.
  { destruct y; try discriminate. destruct x; simpl;
      (split; [discriminate|]); intros (_ & H & _); discriminate. }
  rewrite (SFcompare_key x y Hx Hy), <- lex_Eq.
  destruct (lex (key x) (key y)); split; intros H;
    try discriminate; auto; destruct H as (_ & _ & H); discriminate.
Qed.

Lemma ltb_keys (x y : float64) :
  IsNaN x = false -> IsNaN y = false ->
  ltb x y = true -> klt (key x) (key y).
Proof. intros _ _ H. apply ltb_true in H. tauto. Qed.

Lemma nltb_keys (x y : float64) :
  IsNaN x = false -> IsNaN y = false ->
  ltb x y = false -> ~ klt (key x) (key y).
Proof.
  intros Hx Hy H K.
  assert (G : ltb x y = true) by (apply ltb_true; auto).
  rewrite G in H; discriminate.
Qed.

Lemma leb_keys (x y : float64) :
  IsNaN x = false -> IsNaN y = false ->
  leb x y = true -> ~ klt (key y) (key x).
Proof. intros _ _ H. apply leb_true in H. tauto. Qed.

Lemma nleb_keys (x y : float64) :
  IsNaN x = false -> IsNaN y = false ->
  leb x y = false -> klt (key y) (key x).
Proof.
  intros Hx Hy H.
  destruct (lex (key y) (key x)) eqn:E.
  - apply lex_Eq in E.
    assert (G : leb x y = true).
    { apply leb_true. repeat split; auto.
      destruct (key x) as [[a1 b1] c1], (key y) as [[a2 b2] c2].
      unfold klt, keq in *. lia. }
    rewrite G in H; discriminate.
  - apply lex_Lt in E. exact E.
  - apply lex_Gt in E.
    assert (G : leb x y = true).
    { apply leb_true. repeat split; auto.
      destruct (key x) as [[a1 b1] c1], (key y) as [[a2 b2] c2].
      unfold klt in *. lia. }
    rewrite G in H; discriminate.
Qed.

Lemma eqb_keys (x y : float64) :
  IsNaN x = false -> IsNaN y = false ->
  eqb x y = true -> keq (key x) (key y).
Proof. intros _ _ H. apply eqb_true in H. tauto. Qed.

Lemma neqb_keys (x y : float64) :
  IsNaN x = false -> IsNaN y = false ->
  eqb x y = false -> ~ keq (key x) (key y).
Proof.
  intros Hx Hy H K.
  assert (G : eqb x y = true) by (apply eqb_true; auto).
  rewrite G in H; discriminate.
Qed.

(** Every comparison with NaN is false. *)
Lemma ltb_nan_l (y : float64) : ltb S754_nan y = false.
Proof. reflexivity. Qed.
Lemma ltb_nan_r (x : float64) : ltb x S754_nan = false.
Proof. destruct x; reflexivity. Qed.
Lemma leb_nan_l (y : float64) : leb S754_nan y = false.
Proof. reflexivity. Qed.
Lemma leb_nan_r (x : float64) : leb x S754_nan = false.
Proof. destruct x; reflexivity. Qed.
Lemma eqb_nan_l (y : float64) : eqb S754_nan y = false.
Proof. reflexivity. Qed.
Lemma eqb_nan_r (x : float64) : eqb x S754_nan = false.
Proof. destruct x; reflexivity. Qed.

End FloatOrder.

(** Case analysis on a float64: the two zeros, the two infinities, NaN,
    the negative and the positive numbers. *)
Ltac fcases x := destruct x as [[]|[]| |[] ? ?].

(** Reads every comparison of the context on the keys. *)
Ltac keys :=
  repeat match goal with
    | H : ltb S754_nan _ = _ |- _ => rewrite ltb_nan_l in H
    | H : ltb _ S754_nan = _ |- _ => rewrite ltb_nan_r in H
    | H : leb S754_nan _ = _ |- _ => rewrite leb_nan_l in H
    | H : leb _ S754_nan = _ |- _ => rewrite leb_nan_r in H
    | H : eqb S754_nan _ = _ |- _ => rewrite eqb_nan_l in H
    | H : eqb _ S754_nan = _ |- _ => rewrite eqb_nan_r in H
    | H : false = true |- _ => discriminate H
    | H : false = false |- _ => clear H
    | H : ltb ?x ?y = true |- _ => apply (ltb_keys x y eq_refl eq_refl) in H
    | H : ltb ?x ?y = false |- _ => apply (nltb_keys x y eq_refl eq_refl) in H
    | H : leb ?x ?y = true |- _ => apply (leb_keys x y eq_refl eq_refl) in H
    | H : leb ?x ?y = false |- _ => apply (nleb_keys x y eq_refl eq_refl) in H
    | H : eqb ?x ?y = true |- _ => apply (eqb_keys x y eq_refl eq_refl) in H
    | H : eqb ?x ?y = false |- _ => apply (neqb_keys x y eq_refl eq_refl) in H
    end;
  cbn [key klt keq] in *.

(** Decides the comparisons of the goal one after the other, and closes
    the branches that contradict the order. *)
Ltac fcmp :=
  unfold Min, Max, is_zero in *;
  repeat (cbn [IsNegInf IsPosInf IsNaN Signbit orb andb Inf NaN] in *;
          rewrite ?ltb_nan_l, ?ltb_nan_r, ?leb_nan_l, ?leb_nan_r,
            ?eqb_nan_l, ?eqb_nan_r;
          match goal with
          | |- context [if ltb ?a ?b then _ else _] =>
              destruct (ltb a b) eqn:?
          | |- context [if eqb ?a ?b then _ else _] =>
              destruct (eqb a b) eqn:?
          | |- context [if eqb ?a ?b && _ then _ else _] =>
              destruct (eqb a b) eqn:?
          | |- context [ltb ?a ?b] => destruct (ltb a b) eqn:?
          | |- context [leb ?a ?b] => destruct (leb a b) eqn:?
          | |- context [eqb ?a ?b] => destruct (eqb a b) eqn:?
          end);
  cbn [IsNegInf IsPosInf IsNaN Signbit orb andb Inf NaN] in *;
  try reflexivity; try discriminate;
  try (exfalso; keys; lia).

Section MinMax.

Lemma ltb_Min_r (a p : float64) : ltb p (Min a p) = false.
Proof. fcases a; fcases p; fcmp. Qed.

Lemma ltb_Max_l (a p : float64) : ltb (Max a p) p = false.
Proof. fcases a; fcases p; fcmp. Qed.

Lemma Min_leb_Max (x y : float64) :
  IsNaN x = false -> IsNaN y = false -> leb (Min x y) (Max x y) = true.
Proof. intros Hx Hy. fcases x; fcases y; fcmp. Qed.

Lemma Min_eqb_l (s n : float64) :
  leb s n = true -> eqb (Min s n) s = true.
Proof. intros H. fcases s; fcases n; fcmp. Qed.

Lemma Max_eqb_r (s n : float64) :
  leb s n = true -> eqb (Max s n) n = true.
Proof. intros H. fcases s; fcases n; fcmp. Qed.

Lemma Min_swapped (s n : float64) : ltb n s = true -> Min s n = n.
Proof. intros H. fcases s; fcases n; fcmp. Qed.

Lemma Max_swapped (s n : float64) : ltb n s = true -> Max s n = s.
Proof. intros H. fcases s; fcases n; fcmp. Qed.

End MinMax.

(* ------------------------------------------------------------------ *)
(** ** Contains and Extend *)

Section ContainsExtend.

Lemma ltb_irrefl (x : float64) : ltb x x = false.
Proof. fcases x; fcmp. Qed.

Lemma leb_not_ltb (x y : float64) : leb x y = true -> ltb y x = false.
Proof. intros H. fcases x; fcases y; fcmp. Qed.

Lemma ltb_not_eqb (x y : float64) : ltb x y = true -> eqb x y = false.
Proof. intros H. fcases x; fcases y; fcmp. Qed.

Lemma leb_not_ltb_eqb (x y : float64) :
  leb x y = true -> ltb x y = false -> eqb x y = true.
Proof. intros H G. fcases x; fcases y; fcmp. Qed.

Lemma leb_eqb_refl (x y : float64) : leb x y = true -> eqb x x = true.
Proof. intros H. fcases x; fcases y; fcmp. Qed.

(** [Contains] is the conjunction of its four comparisons. *)
Lemma Contains_true (b : Bound) (p : Point) :
  Contains b p = true <->
  ltb (Y p) (Y (sw b)) = false /\ ltb (Y (ne b)) (Y p) = false /\
  ltb (X p) (X (sw b)) = false /\ ltb (X (ne b)) (X p) = false.
Proof.
  unfold Contains.
  destruct (ltb (Y p) (Y (sw b))), (ltb (Y (ne b)) (Y p)),
    (ltb (X p) (X (sw b))), (ltb (X (ne b)) (X p)); simpl;
    intuition discriminate.
Qed.

(** A bound that does not contain [p] is widened on both axes. *)
Lemma Extend_outside (b : Bound) (p : Point) :
  Contains b p = false ->
  Extend b p =
  {| sw := mkPoint (Min (X (sw b)) (X p)) (Min (Y (sw b)) (Y p));
     ne := mkPoint (Max (X (ne b)) (X p)) (Max (Y (ne b)) (Y p)) |}.
Proof. intros H. unfold Extend. rewrite H. reflexivity. Qed.

Lemma Extend_inside (b : Bound) (p : Point) :
  Contains b p = true -> Extend b p = b.
Proof. intros H. unfold Extend. rewrite H. reflexivity. Qed.

(** After [Extend], the bound contains the point. *)
Lemma Contains_Extend (b : Bound) (p : Point) :
  Contains (Extend b p) p = true.
Proof.
  destruct (Contains b p) eqn:Hc.
  - rewrite (Extend_inside _ _ Hc). exact Hc.
  - rewrite (Extend_outside _ _ Hc). apply Contains_true. simpl.
    repeat split; auto using ltb_Min_r, ltb_Max_l.
Qed.

End ContainsExtend.

(** C8. For all four arguments that are numbers (none is NaN), in any
    order, the bound returned by [NewBound west east south north] has
    [sw.X <= ne.X] and [sw.Y <= ne.Y]. *)
Theorem NewBound_normalized (west east south north : float64) :
  IsNaN west = false -> IsNaN east = false ->
  IsNaN south = false -> IsNaN north = false ->
  leb (X (sw (NewBound west east south north)))
      (X (ne (NewBound west east south north))) = true /\
  leb (Y (sw (NewBound west east south north)))
      (Y (ne (NewBound west east south north))) = true.
Proof.
  intros Hw He Hs Hn. unfold NewBound; simpl.
  split; apply Min_leb_Max; assumption.
Qed.

(** With a NaN argument the corners are NaN on that axis, and no
    comparison of them holds. *)
Lemma NewBound_nan_not_ordered (east south north : float64) :
  leb (X (sw (NewBound NaN east south north)))
      (X (ne (NewBound NaN east south north))) = false.
Proof. unfold NewBound; simpl. fcases east; reflexivity. Qed.

Lemma NewBound_normalized_witness :
  leb (X (sw (NewBound (lit 10) (lit (-10)) (lit 5) (lit (-5)))))
      (X (ne (NewBound (lit 10) (lit (-10)) (lit 5) (lit (-5))))) = true /\
  leb (Y (sw (NewBound (lit 10) (lit (-10)) (lit 5) (lit (-5)))))
      (Y (ne (NewBound (lit 10) (lit (-10)) (lit 5) (lit (-5))))) = true.
Proof.
  apply (NewBound_normalized (lit 10) (lit (-10)) (lit 5) (lit (-5)));
    reflexivity.
Defined.

(** C9. [Extend] is idempotent: for every bound [b] and every point [p],
    extending by [p] twice leaves the bound in the state the first
    extension produced. *)
Theorem Extend_idempotent (b : Bound) (p : Point) :
  Extend (Extend b p) p = Extend b p.
Proof. apply Extend_inside, Contains_Extend. Qed.

(* ------------------------------------------------------------------ *)
(** ** Corners *)

(** C6, as amended. Every bound whose corners are in order ([sw.X <= ne.X]
    and [sw.Y <= ne.Y]) contains its own south-west and north-east
    corners. *)
Theorem Contains_own_corners (b : Bound) :
  normalized b ->
  Contains b (SouthWest b) = true /\ Contains b (NorthEast b) = true.
Proof.
  intros [Hx Hy].
  split; apply Contains_true; simpl;
    repeat split; auto using ltb_irrefl, leb_not_ltb.
Qed.

Lemma Contains_own_corners_witness :
  normalized (NewBound (lit 0) (lit 1) (lit 0) (lit 1)) /\
  Contains (NewBound (lit 0) (lit 1) (lit 0) (lit 1))
           (SouthWest (NewBound (lit 0) (lit 1) (lit 0) (lit 1))) = true /\
  Contains (NewBound (lit 0) (lit 1) (lit 0) (lit 1))
           (NorthEast (NewBound (lit 0) (lit 1) (lit 0) (lit 1))) = true.
Proof.
  split.
  - split; reflexivity.
  - apply (Contains_own_corners (NewBound (lit 0) (lit 1) (lit 0) (lit 1))).
    split; reflexivity.
Defined.

(** C6 fails as stated: the unit box padded by -1 has its corners
    exchanged, sw = (1, 1) and ne = (0, 0), and contains neither of
    them. *)
Lemma Contains_own_corners_malformed :
  let b := Pad (NewBound (lit 0) (lit 1) (lit 0) (lit 1)) (lit (-1)) in
  b = {| sw := mkPoint (lit 1) (lit 1); ne := mkPoint (lit 0) (lit 0) |} /\
  Contains b (SouthWest b) = false /\ Contains b (NorthEast b) = false.
Proof. vm_compute. repeat split. Qed.

(** A bound with an inverted axis contains none of its corners. *)
Lemma Contains_inverted (b : Bound) :
  ltb (X (ne b)) (X (sw b)) = true \/ ltb (Y (ne b)) (Y (sw b)) = true ->
  Contains b (SouthWest b) = false /\ Contains b (NorthEast b) = false.
Proof.
  intros H. unfold Contains, SouthWest, NorthEast; simpl.
  rewrite !ltb_irrefl. simpl.
  destruct H as [H|H]; rewrite H; rewrite ?orb_true_r; simpl;
    split; try reflexivity;
    destruct (ltb (Y (ne b)) (Y (sw b))); reflexivity.
Qed.

(* ------------------------------------------------------------------ *)
(** ** Clone *)

(** Some axis has [sw > ne]. *)
Definition malformed (b : Bound) : Prop :=
  ltb (X (ne b)) (X (sw b)) = true \/ ltb (Y (ne b)) (Y (sw b)) = true.

(** The box of the minima and maxima of the two corners, as [Extend]
    computes them. *)
Definition minmax_box (b : Bound) : Bound :=
  {| sw := mkPoint (Min (X (sw b)) (X (ne b))) (Min (Y (sw b)) (Y (ne b)));
     ne := mkPoint (Max (X (sw b)) (X (ne b))) (Max (Y (sw b)) (Y (ne b))) |}.

Lemma Clone_normalized (b : Bound) :
  normalized b -> Equals (Clone b) b = true.
Proof.
  intros [Hx Hy]. unfold Clone, NewBoundFromPoints.
  set (b0 := {| sw := PointOps.Clone (sw b); ne := PointOps.Clone (sw b) |}).
  destruct (Contains b0 (ne b)) eqn:Hc.
  - rewrite (Extend_inside _ _ Hc).
    apply Contains_true in Hc. simpl in Hc.
    destruct Hc as (_ & Hy' & _ & Hx').
    unfold Equals, PointOps.Equals; simpl.
    rewrite (leb_eqb_refl _ _ Hx), (leb_eqb_refl _ _ Hy).
    rewrite (leb_not_ltb_eqb _ _ Hx Hx'), (leb_not_ltb_eqb _ _ Hy Hy').
    reflexivity.
  - rewrite (Extend_outside _ _ Hc).
    unfold Equals, PointOps.Equals; simpl.
    rewrite (Min_eqb_l _ _ Hx), (Min_eqb_l _ _ Hy).
    rewrite (Max_eqb_r _ _ Hx), (Max_eqb_r _ _ Hy).
    reflexivity.
Qed.

Lemma Clone_malformed (b : Bound) :
  malformed b -> Clone b = minmax_box b /\ Equals (Clone b) b = false.
Proof.
  intros H.
  assert (Hc : Contains {| sw := PointOps.Clone (sw b);
                           ne := PointOps.Clone (sw b) |} (ne b) = false).
  { unfold Contains; simpl.
    destruct H as [H|H]; rewrite H; simpl; try reflexivity.
    destruct (ltb (Y (ne b)) (Y (sw b)) || ltb (Y (sw b)) (Y (ne b)));
      reflexivity. }
  assert (Hb : Clone b = minmax_box b).
  { unfold Clone, NewBoundFromPoints. rewrite (Extend_outside _ _ Hc).
    reflexivity. }
  split; [exact Hb|].
  rewrite Hb. unfold Equals, PointOps.Equals, minmax_box; simpl.
  destruct H as [H|H]; rewrite (Min_swapped _ _ H), (ltb_not_eqb _ _ H);
    simpl; rewrite ?andb_false_r; reflexivity.
Qed.

(** C10. [Clone] is an exact copy only of a bound whose corners are in
    order: then [b.Clone().Equals(b)] is true.  For a malformed bound
    (some axis with sw > ne) [Clone] returns the box of the minima and the
    maxima, [b.Clone().Equals(b)] is false, and [Empty] of the clone can
    differ from [Empty] of the bound. *)
Theorem Clone_exact_only_if_normalized :
  (forall b, normalized b -> Equals (Clone b) b = true) /\
  (forall b, malformed b ->
             Clone b = minmax_box b /\ Equals (Clone b) b = false) /\
  (exists b, malformed b /\ Empty b = true /\ Empty (Clone b) = false).
Proof.
  split; [exact Clone_normalized|].
  split; [exact Clone_malformed|].
  exists (Pad (NewBound (lit 0) (lit 1) (lit 0) (lit 1)) (lit (-1))).
  split; [left; reflexivity|]. split; reflexivity.
Qed.

Lemma Clone_exact_only_if_normalized_witness :
  (normalized (NewBound (lit 0) (lit 1) (lit 0) (lit 1)) /\
   Equals (Clone (NewBound (lit 0) (lit 1) (lit 0) (lit 1)))
          (NewBound (lit 0) (lit 1) (lit 0) (lit 1)) = true) /\
  (malformed (Pad (NewBound (lit 0) (lit 1) (lit 0) (lit 1)) (lit (-1))) /\
   Equals (Clone (Pad (NewBound (lit 0) (lit 1) (lit 0) (lit 1)) (lit (-1))))
          (Pad (NewBound (lit 0) (lit 1) (lit 0) (lit 1)) (lit (-1))) = false).
Proof.
  split.
  - split.
    + split; reflexivity.
    + apply (proj1 Clone_exact_only_if_normalized). split; reflexivity.
  - split.
    + left; reflexivity.
    + apply (proj1 (proj2 Clone_exact_only_if_normalized)). left; reflexivity.
Defined.

(* ------------------------------------------------------------------ *)
(** ** Intersects *)

Section IntersectsSound.

Lemma leb_nan (x y : float64) :
  leb x y = true -> IsNaN x = false /\ IsNaN y = false.
Proof. intros H. apply leb_true in H. tauto. Qed.

(** Among numbers [<=] is transitive, and [not (y < x)] is [x <= y]. *)
Lemma leb_trans (x y z : float64) :
  leb x y = true -> leb y z = true -> leb x z = true.
Proof.
  intros H G. apply leb_true in H, G. apply leb_true.
  destruct H as (Hx & Hy & H), G as (_ & Hz & G).
  repeat split; auto.
  destruct (key x) as [[a1 b1] c1], (key y) as [[a2 b2] c2],
    (key z) as [[a3 b3] c3].
  unfold klt in *. lia.
Qed.

Lemma not_ltb_leb (x y : float64) :
  IsNaN x = false -> IsNaN y = false -> ltb y x = false -> leb x y = true.
Proof.
  intros Hx Hy H. apply leb_true. repeat split; auto.
  exact (nltb_keys y x Hy Hx H).
Qed.

(** X1. On bounds whose corners are in order, [Intersects] answers true
    only for boxes that overlap or touch. *)
Lemma Intersects_sound (a b : Bound) :
  normalized a -> normalized b ->
  Intersects a b = true -> overlaps a b = true.
Proof.
  intros [Hax Hay] [Hbx Hby] H.
  destruct (leb_nan _ _ Hax) as [N1 N2], (leb_nan _ _ Hay) as [N3 N4],
    (leb_nan _ _ Hbx) as [N5 N6], (leb_nan _ _ Hby) as [N7 N8].
  assert (C : Contains b (sw a) = true \/ Contains b (ne a) = true \/
              Contains b (SouthEast a) = true \/
              Contains b (NorthWest a) = true \/
              Contains a (sw b) = true).
  { unfold Intersects in H.
    destruct (Contains b (sw a)); auto.
    destruct (Contains b (ne a)); auto.
    destruct (Contains b (SouthEast a)); auto.
    destruct (Contains b (NorthWest a)); auto.
    destruct (Contains a (sw b)); auto; discriminate. }
  unfold overlaps. rewrite !andb_true_iff.
  destruct C as [C|[C|[C|[C|C]]]]; apply Contains_true in C;
    simpl in C; destruct C as (C1 & C2 & C3 & C4);
    apply not_ltb_leb in C1, C2, C3, C4; auto;
    repeat split; eauto using leb_trans.
Qed.

End IntersectsSound.

(** C1, the failing input. A tall box [1,2] x [0,3] and a wide box
    [0,3] x [1,2] cross each other: both have their corners in order and
    the axis-overlap test holds, but no corner of either lies in the
    other, and [Intersects] answers false. *)
Theorem Intersects_misses_crossing :
  let a := NewBound (lit 1) (lit 2) (lit 0) (lit 3) in
  let b := NewBound (lit 0) (lit 3) (lit 1) (lit 2) in
  normalized a /\ normalized b /\
  overlaps a b = true /\ Intersects a b = false.
Proof. vm_compute. repeat split. Qed.

(** C5, the failing input. The east edge of [0,2] x [4,5] lies inside
    [1,5] x [0,10]: the first bound sees its own corner inside the second
    and answers true, the second sees none of its corners inside the first
    and answers false. *)
Theorem Intersects_not_symmetric :
  let a := NewBound (lit 0) (lit 2) (lit 4) (lit 5) in
  let b := NewBound (lit 1) (lit 5) (lit 0) (lit 10) in
  normalized a /\ normalized b /\
  Intersects a b = true /\ Intersects b a = false.
Proof. vm_compute. repeat split. Qed.

(* ------------------------------------------------------------------ *)
(** ** GeoHash strings *)

(** A Go string is a sequence of bytes; a rune is a Unicode code point. *)
Definition rune : Set := Z.

Definition byte_of (z : Z) : ascii := ascii_of_N (Z.to_N z).

(** The conversion [string(r)] of a rune: its UTF-8 encoding, and the
    encoding of U+FFFD for a value that is not a valid code point. *)
Definition string_of_rune (r : rune) : string :=
  if (r <? 0) || (0x10FFFF <? r) || ((0xD800 <=? r) && (r <=? 0xDFFF))
  then String (byte_of 0xEF) (String (byte_of 0xBF)
         (String (byte_of 0xBD) EmptyString))
  else if r <? 0x80 then String (byte_of r) EmptyString
  else if r <? 0x800 then
    String (byte_of (Z.lor 0xC0 (Z.shiftr r 6)))
      (String (byte_of (Z.lor 0x80 (Z.land r 0x3F))) EmptyString)
  else if r <? 0x10000 then
    String (byte_of (Z.lor 0xE0 (Z.shiftr r 12)))
      (String (byte_of (Z.lor 0x80 (Z.land (Z.shiftr r 6) 0x3F)))
        (String (byte_of (Z.lor 0x80 (Z.land r 0x3F))) EmptyString))
  else
    String (byte_of (Z.lor 0xF0 (Z.shiftr r 18)))
      (String (byte_of (Z.lor 0x80 (Z.land (Z.shiftr r 12) 0x3F)))
        (String (byte_of (Z.lor 0x80 (Z.land (Z.shiftr r 6) 0x3F)))
          (String (byte_of (Z.lor 0x80 (Z.land r 0x3F))) EmptyString))).

(** strings.Index: the index of the first instance of [substr] in [s],
    or -1 if [substr] is not present in [s]. *)
Fixpoint index_from (k : Z) (s substr : string) : Z :=
  if String.prefix substr s then k
  else match s with
       | EmptyString => -1
       | String _ s' => index_from (k + 1) s' substr
       end.

Definition strings_Index (s substr : string) : Z := index_from 0 s substr.

Definition alphabet : string := "0123456789bcdefghjkmnpqrstuvwxyz".

(** The runes of a string of ASCII characters, as [range] yields them:
    one rune per byte. *)
Definition runes (s : string) : list rune :=
  map (fun c => Z.of_N (N_of_ascii c)) (list_ascii_of_string s).

(** The state of the bisection: the two ranges and the axis parity. *)
Record ranges : Set := mkRanges {
  lngMin : float64; lngMax : float64;
  latMin : float64; latMax : float64
}.

Definition world : ranges :=
  {| lngMin := lit (-180); lngMax := lit 180;
     latMin := lit (-90); latMax := lit 90 |}.

(** One bisection of the longitude range: the upper bound moves to the
    midpoint when the bit is 0, the lower bound when it is 1. *)
Definition bisect_lng (zero_bit : bool) (r : ranges) : ranges :=
  let mid := div (add (lngMin r) (lngMax r)) (lit 2) in
  if zero_bit
  then {| lngMin := lngMin r; lngMax := mid;
          latMin := latMin r; latMax := latMax r |}
  else {| lngMin := mid; lngMax := lngMax r;
          latMin := latMin r; latMax := latMax r |}.

Definition bisect_lat (zero_bit : bool) (r : ranges) : ranges :=
  let mid := div (add (latMin r) (latMax r)) (lit 2) in
  if zero_bit
  then {| lngMin := lngMin r; lngMax := lngMax r;
          latMin := latMin r; latMax := mid |}
  else {| lngMin := lngMin r; lngMax := lngMax r;
          latMin := mid; latMax := latMax r |}.

(** The values of [j] in [for j := 0x10; j != 0; j >>= 1]. *)
Fixpoint shift_masks (fuel : nat) (j : Z) : list Z :=
  match fuel with
  | O => []
  | S fuel' => if j =? 0 then [] else j :: shift_masks fuel' (Z.shiftr j 1)
  end.

Definition char_masks : list Z := shift_masks 64 0x10.

(** The body of the inner loop, for the index [i] of the character and
    the mask [j]. *)
Definition bit_step (i : Z) (st : ranges * bool) (j : Z) : ranges * bool :=
  let '(r, even) := st in
  let r' := if even then bisect_lng (Z.land i j =? 0) r
            else bisect_lat (Z.land i j =? 0) r in
  (r', negb even).

(** The body of the outer loop, for the rune [r]. *)
Definition rune_step (st : ranges * bool) (r : rune) : ranges * bool :=
  let i := strings_Index alphabet (string_of_rune r) in
  fold_left (bit_step i) char_masks st.

(** [hash] is the sequence of the runes of the string, in the order in
    which [for _, r := range hash] visits them. *)
Definition geoHash2ranges (hash : list rune)
  : float64 * float64 * float64 * float64 :=
  let '(r, _) := fold_left rune_step hash (world, true) in
  (lngMin r, lngMax r, latMin r, latMax r).

Definition NewBoundFromGeoHash (hash : list rune) : Bound :=
  let '(west, east, south, north) := geoHash2ranges hash in
  NewBound west east south north.

Section GeoHashString.

Lemma char_masks_eq : char_masks = [16; 8; 4; 2; 1].
Proof. reflexivity. Qed.

(** The index -1 of a missing character has all five mask bits set, like
    the index 31. *)
Lemma bit_step_sentinel (st : ranges * bool) (j : Z) :
  In j char_masks -> bit_step (-1) st j = bit_step 31 st j.
Proof.
  rewrite char_masks_eq. simpl.
  intros [H|[H|[H|[H|[H|H]]]]]; try contradiction; subst j; reflexivity.
Qed.

Lemma fold_bit_step_sentinel (js : list Z) (st : ranges * bool) :
  (forall j, In j js -> In j char_masks) ->
  fold_left (bit_step (-1)) js st = fold_left (bit_step 31) js st.
Proof.
  revert st. induction js as [|j js IH]; intros st Hjs; simpl.
  - reflexivity.
  - rewrite bit_step_sentinel by (apply Hjs; left; reflexivity).
    apply IH. intros k Hk. apply Hjs. right. exact Hk.
Qed.

(** 'z' is the last character of the alphabet. *)
Definition rune_z : rune := 122.

Lemma index_z : strings_Index alphabet (string_of_rune rune_z) = 31.
Proof. reflexivity. Qed.

(** A rune outside the alphabet is replaced by 'z'. *)
Definition as_decoded (r : rune) : rune :=
  if strings_Index alphabet (string_of_rune r) =? -1 then rune_z else r.

Lemma rune_step_as_decoded (st : ranges * bool) (r : rune) :
  rune_step st r = rune_step st (as_decoded r).
Proof.
  unfold as_decoded.
  destruct (strings_Index alphabet (string_of_rune r) =? -1) eqn:E;
    [|reflexivity].
  apply Z.eqb_eq in E. unfold rune_step. rewrite E, index_z.
  apply fold_bit_step_sentinel. auto.
Qed.

Lemma fold_rune_step_as_decoded (hash : list rune) (st : ranges * bool) :
  fold_left rune_step hash st = fold_left rune_step (map as_decoded hash) st.
Proof.
  revert st. induction hash as [|r hash IH]; intros st; simpl.
  - reflexivity.
  - rewrite <- rune_step_as_decoded. apply IH.
Qed.

End GeoHashString.

(** C3, as amended. Decoding a GeoHash string never fails.  A character
    outside the alphabet gets the index -1, every one of its five bits
    reads as 1, and the string decodes to the bound of the string in which
    each such character is replaced by 'z'. *)
Theorem NewBoundFromGeoHash_invalid_as_z (hash : list rune) :
  NewBoundFromGeoHash hash = NewBoundFromGeoHash (map as_decoded hash).
Proof.
  unfold NewBoundFromGeoHash, geoHash2ranges.
  rewrite <- fold_rune_step_as_decoded. reflexivity.
Qed.

(** C3 fails as stated: 'a' is not in the alphabet, and the hash "a"
    decodes to the cell [135, 180] x [45, 90] of the hash "z". *)
Lemma NewBoundFromGeoHash_accepts_invalid :
  strings_Index alphabet (string_of_rune 97) = -1 /\
  runes "a" = [97] /\
  NewBoundFromGeoHash (runes "a") =
  {| sw := mkPoint (lit 135) (lit 45); ne := mkPoint (lit 180) (lit 90) |} /\
  NewBoundFromGeoHash (runes "a") = NewBoundFromGeoHash (runes "z").
Proof. vm_compute. repeat split. Qed.

(* ------------------------------------------------------------------ *)
(** ** GeoHash integers *)

(** The int64 of the same low 64 bits. *)
Definition int64_wrap (z : Z) : Z := (z + 2 ^ 63) mod 2 ^ 64 - 2 ^ 63.

(** The conversion [uint(bits)] of an int. *)
Definition uint_of_int (bits : Z) : Z := bits mod 2 ^ 64.

(** [x << s] on int64, for an unsigned count [s]: a count of 64 or more
    shifts every bit out. *)
Definition shl_int64 (x s : Z) : Z :=
  if s <? 64 then int64_wrap (Z.shiftl x s) else 0.

(** The loop [for i != 0 { ... }] of geoHashInt2ranges.  Beside the
    ranges it returns the pairs of masks that the passes through the body
    applied to the hash, first the longitude mask, then the latitude mask,
    one pair for each pass.  [None] when [fuel] passes do not bring [i] to
    zero. *)
Fixpoint geoHashInt_loop (fuel : nat) (hash i : Z) (r : ranges)
  (passes : list (Z * Z)) : option (ranges * list (Z * Z)) :=
  if i =? 0 then Some (r, passes)
  else
    match fuel with
    | O => None
    | S fuel' =>
        let i1 := Z.shiftr i 1 in
        let r1 := bisect_lng (Z.land hash i1 =? 0) r in
        let i2 := Z.shiftr i1 1 in
        let r2 := bisect_lat (Z.land hash i2 =? 0) r1 in
        geoHashInt_loop fuel' hash i2 r2 (passes ++ [(i1, i2)])
    end.

Definition geoHashInt_run (fuel : nat) (hash bits : Z)
  : option (ranges * list (Z * Z)) :=
  let i := shl_int64 1 (uint_of_int bits) in
  geoHashInt_loop fuel hash i world [].

Definition geoHashInt2ranges (fuel : nat) (hash bits : Z)
  : option (float64 * float64 * float64 * float64) :=
  match geoHashInt_run fuel hash bits with
  | Some (r, _) => Some (lngMin r, lngMax r, latMin r, latMax r)
  | None => None
  end.

Definition NewBoundFromGeoHashInt64 (fuel : nat) (hash bits : Z)
  : option Bound :=
  match geoHashInt2ranges fuel hash bits with
  | Some (west, east, south, north) => Some (NewBound west east south north)
  | None => None
  end.

Section GeoHashInt.

Lemma geoHashInt_loop_zero fuel hash r passes :
  geoHashInt_loop fuel hash 0 r passes = Some (r, passes).
Proof. destruct fuel; reflexivity. Qed.

Lemma geoHashInt_loop_step fuel hash i r passes :
  i <> 0 ->
  geoHashInt_loop (S fuel) hash i r passes =
  let i1 := Z.shiftr i 1 in
  let r1 := bisect_lng (Z.land hash i1 =? 0) r in
  let i2 := Z.shiftr i1 1 in
  let r2 := bisect_lat (Z.land hash i2 =? 0) r1 in
  geoHashInt_loop fuel hash i2 r2 (passes ++ [(i1, i2)]).
Proof.
  intros H. apply Z.eqb_neq in H. simpl. rewrite H. reflexivity.
Qed.

Lemma shiftr_pow2_twice (k : Z) :
  0 <= k ->
  Z.shiftr (Z.shiftr (2 ^ k) 1) 1 = if k <? 2 then 0 else 2 ^ (k - 2).
Proof.
  intros Hk. rewrite Z.shiftr_shiftr by lia. simpl (1 + 1).
  rewrite Z.shiftr_div_pow2 by lia.
  destruct (Z.ltb_spec k 2) as [H|H].
  - assert (k = 0 \/ k = 1) as [-> | ->] by lia; reflexivity.
  - replace k with ((k - 2) + 2) at 1 by lia.
    rewrite Z.pow_add_r by lia. apply Z.div_mul. discriminate.
Qed.

(** From a single bit at position [k], the body runs k/2 + 1 times. *)
Lemma geoHashInt_loop_pow2 (fuel : nat) :
  forall (k hash : Z) (r : ranges) (passes : list (Z * Z)),
    0 <= k -> (Z.to_nat (k / 2) + 1 <= fuel)%nat ->
    exists r' passes',
      geoHashInt_loop fuel hash (2 ^ k) r passes = Some (r', passes') /\
      List.length passes' = (List.length passes + Z.to_nat (k / 2) + 1)%nat.
Proof.
  induction fuel as [|fuel IH]; intros k hash r passes Hk Hfuel; [lia|].
  assert (Hpos : 2 ^ k <> 0) by (apply Z.pow_nonzero; lia).
  rewrite (geoHashInt_loop_step _ _ _ _ _ Hpos). cbv zeta.
  rewrite (shiftr_pow2_twice k Hk).
  destruct (Z.ltb_spec k 2) as [H|H].
  - rewrite geoHashInt_loop_zero. eexists; eexists; split; [reflexivity|].
    rewrite length_app; simpl.
    assert (k / 2 = 0) as -> by (apply Z.div_small; lia). simpl. lia.
  - assert (Hdiv : (k - 2) / 2 = k / 2 - 1).
    { replace (k - 2) with (k + (-1) * 2) by lia.
      rewrite Z.div_add by discriminate. lia. }
    assert (1 <= k / 2) by (apply Z.div_le_lower_bound; lia).
    edestruct (IH (k - 2) hash) as (r' & passes' & Hrun & Hlen);
      [lia | | rewrite Hrun; eexists; eexists; split; [reflexivity|] ].
    + rewrite Hdiv. lia.
    + rewrite Hlen, length_app, Hdiv. simpl. lia.
Qed.

Lemma shl_int64_one (bits : Z) :
  0 <= bits <= 62 -> shl_int64 1 (uint_of_int bits) = 2 ^ bits.
Proof.
  intros H. unfold shl_int64, uint_of_int.
  rewrite (Z.mod_small bits) by lia.
  destruct (Z.ltb_spec bits 64); [|lia].
  rewrite Z.shiftl_1_l. unfold int64_wrap.
  assert (0 < 2 ^ bits) by (apply Z.pow_pos_nonneg; lia).
  assert (2 ^ bits <= 2 ^ 62) by (apply Z.pow_le_mono_r; lia).
  rewrite Z.mod_small; lia.
Qed.

(** X2. For a bit count from 0 to 62 the loop ends, after bits/2 + 1
    passes: one more than the bit pairs of the hash. *)
Lemma geoHashInt_passes (fuel : nat) (hash bits : Z) :
  0 <= bits <= 62 -> (32 <= fuel)%nat ->
  exists r passes,
    geoHashInt_run fuel hash bits = Some (r, passes) /\
    Z.of_nat (List.length passes) = bits / 2 + 1.
Proof.
  intros Hbits Hfuel. unfold geoHashInt_run.
  rewrite (shl_int64_one bits Hbits).
  assert (0 <= bits / 2 <= 31).
  { split; [apply Z.div_pos; lia|].
    apply Z.div_le_upper_bound; lia. }
  destruct (geoHashInt_loop_pow2 fuel bits hash world [])
    as (r & passes & Hrun & Hlen); [lia | lia |].
  exists r, passes. split; [exact Hrun|]. rewrite Hlen. simpl. lia.
Qed.

(** A negative cursor never becomes zero: the shift of an int64 keeps the
    sign. *)
Lemma geoHashInt_loop_negative (fuel : nat) :
  forall (hash i : Z) (r : ranges) (passes : list (Z * Z)),
    i < 0 -> geoHashInt_loop fuel hash i r passes = None.
Proof.
  induction fuel as [|fuel IH]; intros hash i r passes Hi.
  - simpl. destruct (Z.eqb_spec i 0); [lia|reflexivity].
  - rewrite geoHashInt_loop_step by lia. cbv zeta.
    apply IH. rewrite !Z.shiftr_neg. exact Hi.
Qed.

(** X3. With 63 bits the cursor starts at the sign bit and the loop does
    not end. *)
Lemma geoHashInt_63_diverges (fuel : nat) (hash : Z) :
  geoHashInt_run fuel hash 63 = None.
Proof.
  unfold geoHashInt_run. apply geoHashInt_loop_negative. reflexivity.
Qed.

(** X4. A bit count that is negative or at least 64 shifts the cursor out:
    the body does not run. *)
Lemma geoHashInt_no_pass (fuel : nat) (hash bits : Z) :
  - 2 ^ 63 <= bits < 0 \/ 64 <= bits < 2 ^ 63 ->
  geoHashInt_run fuel hash bits = Some (world, []).
Proof.
  intros H. unfold geoHashInt_run, shl_int64, uint_of_int.
  assert (G : 64 <= bits mod 2 ^ 64).
  { destruct H as [H|H].
    - replace bits with (bits + 2 ^ 64 + (-1) * 2 ^ 64) by lia.
      rewrite Z.mod_add by lia. rewrite Z.mod_small; lia.
    - rewrite Z.mod_small; lia. }
  destruct (Z.ltb_spec (bits mod 2 ^ 64) 64); [lia|].
  apply geoHashInt_loop_zero.
Qed.

End GeoHashInt.

(** C4, the failing input. The 2-bit hash 3 (binary 11) has one bit pair
    and names the cell [0, 180] x [0, 90].  The loop runs twice: the first
    pass reads the hash with the masks 2 and 1, the second with the mask 0
    on both axes, and halves the cell again to [0, 90] x [0, 45]. *)
Theorem geoHashInt_extra_pass :
  2 / 2 = 1 /\
  geoHashInt_run 32 3 2 =
  Some ({| lngMin := lit 0; lngMax := lit 90;
           latMin := lit 0; latMax := lit 45 |}, [(2, 1); (0, 0)]) /\
  NewBoundFromGeoHashInt64 32 3 2 =
  Some {| sw := mkPoint (lit 0) (lit 0); ne := mkPoint (lit 90) (lit 45) |}.
Proof. vm_compute. repeat split. Qed.

(* ------------------------------------------------------------------ *)
(** ** Map tiles *)

(** The values of a uint64. *)
Definition is_uint64 (x : Z) : Prop := 0 <= x < 2 ^ 64.

(** [x << s], [x + y] and [x - y] on uint64; a shift count of 64 or more
    shifts every bit out. *)
Definition shl_uint64 (x s : Z) : Z :=
  if s <? 64 then Z.shiftl x s mod 2 ^ 64 else 0.

Definition add_uint64 (x y : Z) : Z := (x + y) mod 2 ^ 64.
Definition sub_uint64 (x y : Z) : Z := (x - y) mod 2 ^ 64.

Definition tile_panic : string := "tile index out of range".

Section MapTile.

(** The inverse Mercator projection of mercator.go, which is not part of
    the sources at hand: from a pixel (x, y) at a level to (lng, lat). *)
Variable scalarMercatorInverse : Z -> Z -> Z -> float64 * float64.

Definition NewBoundFromMapTile (x y z : Z) : result Bound :=
  let maxIndex := shl_uint64 1 z in
  if (x <? 0) || (y <? 0) || (maxIndex <=? x) || (maxIndex <=? y)
  then Panics tile_panic
  else
    let shift := sub_uint64 31 z in
    let shift := if 31 <? z then 0 else shift in
    let '(lng1, lat1) :=
      scalarMercatorInverse (shl_uint64 x shift) (shl_uint64 y shift) 31 in
    let '(lng2, lat2) :=
      scalarMercatorInverse (shl_uint64 (add_uint64 x 1) shift)
                            (shl_uint64 (add_uint64 y 1) shift) 31 in
    Returns {| sw := mkPoint (Min lng1 lng2) (Min lat1 lat2);
               ne := mkPoint (Max lng1 lng2) (Max lat1 lat2) |}.

(** The bound of the tile (x, y) for a given shift. *)
Definition tile_bound (x y shift : Z) : Bound :=
  let '(lng1, lat1) :=
    scalarMercatorInverse (shl_uint64 x shift) (shl_uint64 y shift) 31 in
  let '(lng2, lat2) :=
    scalarMercatorInverse (shl_uint64 (add_uint64 x 1) shift)
                          (shl_uint64 (add_uint64 y 1) shift) 31 in
  {| sw := mkPoint (Min lng1 lng2) (Min lat1 lat2);
     ne := mkPoint (Max lng1 lng2) (Max lat1 lat2) |}.

Lemma shl_uint64_one (z : Z) :
  0 <= z < 64 -> shl_uint64 1 z = 2 ^ z.
Proof.
  intros H. unfold shl_uint64.
  destruct (Z.ltb_spec z 64); [|lia].
  rewrite Z.shiftl_1_l. apply Z.mod_small.
  split; [apply Z.pow_nonneg; lia | apply Z.pow_lt_mono_r; lia].
Qed.

Lemma shl_uint64_one_big (z : Z) : 64 <= z -> shl_uint64 1 z = 0.
Proof.
  intros H. unfold shl_uint64. destruct (Z.ltb_spec z 64); [lia|reflexivity].
Qed.

Lemma tile_shift (z : Z) :
  0 <= z < 2 ^ 64 ->
  (if 31 <? z then 0 else sub_uint64 31 z) = Z.max 0 (31 - z).
Proof.
  intros H. destruct (Z.ltb_spec 31 z); [lia|].
  unfold sub_uint64. rewrite Z.mod_small; lia.
Qed.

Lemma NewBoundFromMapTile_in_range (x y z : Z) :
  0 <= x -> 0 <= y -> 0 <= z < 2 ^ 64 ->
  x < shl_uint64 1 z -> y < shl_uint64 1 z ->
  NewBoundFromMapTile x y z = Returns (tile_bound x y (Z.max 0 (31 - z))).
Proof.
  intros Hx Hy Hz Hxm Hym. unfold NewBoundFromMapTile, tile_bound.
  cbv zeta. rewrite (tile_shift z Hz).
  destruct (Z.ltb_spec x 0); [lia|]. destruct (Z.ltb_spec y 0); [lia|].
  destruct (Z.leb_spec (shl_uint64 1 z) x); [lia|].
  destruct (Z.leb_spec (shl_uint64 1 z) y); [lia|].
  cbn [orb].
  destruct (scalarMercatorInverse (shl_uint64 x _) _ _) as [lng1 lat1].
  destruct (scalarMercatorInverse (shl_uint64 (add_uint64 x 1) _) _ _)
    as [lng2 lat2].
  reflexivity.
Qed.

Lemma NewBoundFromMapTile_out_of_range (x y z : Z) :
  shl_uint64 1 z <= x \/ shl_uint64 1 z <= y ->
  NewBoundFromMapTile x y z = Panics tile_panic.
Proof.
  intros H. unfold NewBoundFromMapTile. cbv zeta.
  destruct (x <? 0), (y <? 0); try reflexivity. simpl.
  destruct (Z.leb_spec (shl_uint64 1 z) x); [reflexivity|].
  destruct (Z.leb_spec (shl_uint64 1 z) y); [reflexivity|]. lia.
Qed.

(** X5. At a zoom of 64 or more [maxIndex] wraps around to 0 and every
    index is refused. *)
Lemma NewBoundFromMapTile_zoom_64 (x y z : Z) :
  is_uint64 x -> is_uint64 y -> 64 <= z ->
  NewBoundFromMapTile x y z = Panics tile_panic.
Proof.
  intros Hx Hy Hz. apply NewBoundFromMapTile_out_of_range.
  rewrite (shl_uint64_one_big z Hz). left. apply Hx.
Qed.

End MapTile.

(** A stand-in for the projection in closed examples, linear on both
    axes: lng = 360 x / 2^level - 180 and lat = 90 - 180 y / 2^level.
    The statements about [NewBoundFromMapTile] hold for every
    projection. *)
Definition linear_inverse (x y level : Z) : float64 * float64 :=
  let maxtiles := of_Z (2 ^ level) 0 in
  (sub (mul (lit 360) (div (of_Z x 0) maxtiles)) (lit 180),
   sub (lit 90) (mul (lit 180) (div (of_Z y 0) maxtiles))).

(** C7, as amended. For every triple (x, y, zoom) of uint64 values with
    zoom < 64, [NewBoundFromMapTile] panics with "tile index out of range"
    exactly when x >= 2^zoom or y >= 2^zoom, and otherwise returns the
    bound built with the shift 31 - zoom, and with the shift 0 when zoom
    exceeds 31. *)
Theorem NewBoundFromMapTile_out_of_range_iff
  (inv : Z -> Z -> Z -> float64 * float64) (x y z : Z) :
  is_uint64 x -> is_uint64 y -> 0 <= z < 64 ->
  (NewBoundFromMapTile inv x y z = Panics tile_panic <->
   2 ^ z <= x \/ 2 ^ z <= y) /\
  (x < 2 ^ z -> y < 2 ^ z ->
   NewBoundFromMapTile inv x y z =
   Returns (tile_bound inv x y (if 31 <? z then 0 else 31 - z))).
Proof.
  intros Hx Hy Hz.
  assert (Hm : shl_uint64 1 z = 2 ^ z) by (apply shl_uint64_one; exact Hz).
  assert (Hs : Z.max 0 (31 - z) = if 31 <? z then 0 else 31 - z)
    by (destruct (Z.ltb_spec 31 z); lia).
  assert (Hin : x < 2 ^ z -> y < 2 ^ z ->
                NewBoundFromMapTile inv x y z =
                Returns (tile_bound inv x y (if 31 <? z then 0 else 31 - z))).
  { intros Hxz Hyz. rewrite <- Hs.
    apply NewBoundFromMapTile_in_range; unfold is_uint64 in *; lia. }
  split; [|exact Hin]. split.
  - intros Hp.
    destruct (Z.le_gt_cases (2 ^ z) x) as [G|G]; [left; exact G|].
    destruct (Z.le_gt_cases (2 ^ z) y) as [K|K]; [right; exact K|].
    rewrite (Hin G K) in Hp. discriminate.
  - intros H. apply NewBoundFromMapTile_out_of_range. rewrite Hm. exact H.
Qed.

Lemma NewBoundFromMapTile_out_of_range_iff_witness :
  is_uint64 1 /\ is_uint64 2 /\ 0 <= 2 < 64 /\
  (NewBoundFromMapTile linear_inverse 1 2 2 = Panics tile_panic <->
   2 ^ 2 <= 1 \/ 2 ^ 2 <= 2) /\
  (1 < 2 ^ 2 -> 2 < 2 ^ 2 ->
   NewBoundFromMapTile linear_inverse 1 2 2 =
   Returns (tile_bound linear_inverse 1 2 (if 31 <? 2 then 0 else 31 - 2))).
Proof.
  assert (H1 : is_uint64 1) by (unfold is_uint64; lia).
  assert (H2 : is_uint64 2) by (unfold is_uint64; lia).
  assert (H3 : 0 <= 2 < 64) by lia.
  split; [exact H1|]. split; [exact H2|]. split; [exact H3|].
  exact (NewBoundFromMapTile_out_of_range_iff linear_inverse 1 2 2 H1 H2 H3).
Defined.

(** C7 fails as stated: at zoom 64 the index (0, 0) is below 2^64, and
    the call panics all the same, the uint64 [1 << 64] being 0. *)
Lemma NewBoundFromMapTile_zoom_64_refused :
  is_uint64 0 /\ is_uint64 64 /\ 0 < 2 ^ 64 /\
  NewBoundFromMapTile linear_inverse 0 0 64 = Panics tile_panic.
Proof.
  unfold is_uint64. repeat split; try lia; reflexivity.
Qed.

(* ------------------------------------------------------------------ *)
(** ** Bounds around a point *)

(** The constant [2 * math.Pi] as a float64: 0x1.921fb54442d18p+2. *)
Definition twoPi : float64 := of_Z 7074237752028440 (-50).

Definition distance_panic : string := "invalid distance around center".

Section AroundPoint.

(** The constants and the angle conversions of the package, declared
    outside bound.go, and math.Sin, math.Cos and math.Asin, which Go does
    not specify to the last bit. *)
Variables EarthRadius MinLatitude MaxLatitude : float64.
Variables MinLongitude MaxLongitude : float64.
Variables deg2rad rad2deg : float64 -> float64.
Variables Sin Cos Asin : float64 -> float64.

Definition boundAroundPoint (center : Point) (distance : float64) : Bound :=
  let radDist := div distance EarthRadius in
  let radLat := deg2rad (PointOps.Lat center) in
  let radLon := deg2rad (PointOps.Lng center) in
  let minLat := sub radLat radDist in
  let maxLat := add radLat radDist in
  if ltb MinLatitude minLat && ltb maxLat MaxLatitude then
    let deltaLon := Asin (div (Sin radDist) (Cos radLat)) in
    let minLon := sub radLon deltaLon in
    let minLon := if ltb minLon MinLongitude then add minLon twoPi
                  else minLon in
    let maxLon := add radLon deltaLon in
    let maxLon := if ltb MaxLongitude maxLon then sub maxLon twoPi
                  else maxLon in
    {| sw := mkPoint (rad2deg minLon) (rad2deg minLat);
       ne := mkPoint (rad2deg maxLon) (rad2deg maxLat) |}
  else
    let minLat := Max minLat MinLatitude in
    let maxLat := Min maxLat MaxLatitude in
    let minLon := MinLongitude in
    let maxLon := MaxLongitude in
    {| sw := mkPoint (rad2deg minLon) (rad2deg minLat);
       ne := mkPoint (rad2deg maxLon) (rad2deg maxLat) |}.

Definition NewBoundAroundPoint (center : Point) (distance : float64)
  : result Bound :=
  if ltb distance (lit 0) then Panics distance_panic
  else Returns (boundAroundPoint center distance).

(** A negative distance is refused; NaN is not negative. *)
Lemma NewBoundAroundPoint_panics (center : Point) (distance : float64) :
  NewBoundAroundPoint center distance = Panics distance_panic <->
  ltb distance (lit 0) = true.
Proof.
  unfold NewBoundAroundPoint.
  destruct (ltb distance (lit 0)); split; intros H;
    try reflexivity; discriminate.
Qed.

(** Unless both latitudes are strictly inside the limits, the bound has
    the limits of the longitude as its west and east sides, whatever the
    center and the distance; a latitude equal to a limit is enough. *)
Lemma boundAroundPoint_full_width (center : Point) (distance : float64) :
  let radDist := div distance EarthRadius in
  let radLat := deg2rad (PointOps.Lat center) in
  ltb MinLatitude (sub radLat radDist) = false \/
  ltb (add radLat radDist) MaxLatitude = false ->
  boundAroundPoint center distance =
  {| sw := mkPoint (rad2deg MinLongitude)
                   (rad2deg (Max (sub radLat radDist) MinLatitude));
     ne := mkPoint (rad2deg MaxLongitude)
                   (rad2deg (Min (add radLat radDist) MaxLatitude)) |}.
Proof.
  cbv zeta. intros H. unfold boundAroundPoint. cbv zeta.
  destruct H as [H|H]; rewrite H; rewrite ?andb_false_r; reflexivity.
Qed.

(** The angles of the computation, in radians. *)
Definition radDist (distance : float64) : float64 := div distance EarthRadius.
Definition radLat (center : Point) : float64 := deg2rad (PointOps.Lat center).
Definition radLon (center : Point) : float64 := deg2rad (PointOps.Lng center).

(** The two latitude bounds: the latitude of the center minus and plus the
    angular distance. *)
Definition minLat (center : Point) (distance : float64) : float64 :=
  sub (radLat center) (radDist distance).
Definition maxLat (center : Point) (distance : float64) : float64 :=
  add (radLat center) (radDist distance).


(** The longitude delta, and the correction of a longitude that has passed
    a limit. *)
Definition deltaLon (center : Point) (distance : float64) : float64 :=
  Asin (div (Sin (radDist distance)) (Cos (radLat center))).












End AroundPoint.


















(* ------------------------------------------------------------------ *)
(** ** Growing a bound: Extend, Union, NewBoundFromPoints *)

(** No corner coordinate is NaN. *)
Definition no_nan (b : Bound) : Prop :=
  IsNaN (X (sw b)) = false /\ IsNaN (Y (sw b)) = false /\
  IsNaN (X (ne b)) = false /\ IsNaN (Y (ne b)) = false.

Definition no_nan_point (p : Point) : Prop :=
  IsNaN (X p) = false /\ IsNaN (Y p) = false.

(** As [fcmp], for a goal that compares with NaN at its head. *)
Ltac fcmp_nan :=
  try (rewrite ltb_nan_l; reflexivity);
  try (rewrite ltb_nan_r; reflexivity);
  try (rewrite leb_nan_l; reflexivity);
  try (rewrite leb_nan_r; reflexivity);
  fcmp.

Section Growing.

Lemma ltb_Min_mono (q a p : float64) :
  ltb q a = false -> ltb q (Min a p) = false.
Proof. intros H. fcases q; fcases a; fcases p; fcmp_nan. Qed.

Lemma ltb_Max_mono (q a p : float64) :
  ltb a q = false -> ltb (Max a p) q = false.
Proof. intros H. fcases q; fcases a; fcases p; fcmp_nan. Qed.

Lemma Min_leb_r (a p : float64) :
  IsNaN a = false -> IsNaN p = false -> leb (Min a p) p = true.
Proof. intros Ha Hp. fcases a; fcases p; fcmp_nan. Qed.

Lemma Max_leb_r (a p : float64) :
  IsNaN a = false -> IsNaN p = false -> leb p (Max a p) = true.
Proof. intros Ha Hp. fcases a; fcases p; fcmp_nan. Qed.

Lemma Min_leb_l (a p : float64) :
  IsNaN a = false -> IsNaN p = false -> leb (Min a p) a = true.
Proof. intros Ha Hp. fcases a; fcases p; fcmp_nan. Qed.

Lemma Max_leb_l (a p : float64) :
  IsNaN a = false -> IsNaN p = false -> leb a (Max a p) = true.
Proof. intros Ha Hp. fcases a; fcases p; fcmp_nan. Qed.

Lemma Min_not_nan (a p : float64) :
  IsNaN a = false -> IsNaN p = false -> IsNaN (Min a p) = false.
Proof. intros Ha Hp. fcases a; fcases p; fcmp_nan. Qed.

Lemma Max_not_nan (a p : float64) :
  IsNaN a = false -> IsNaN p = false -> IsNaN (Max a p) = false.
Proof. intros Ha Hp. fcases a; fcases p; fcmp_nan. Qed.

(** Among numbers, [not (x < y)] and [y <= z] chain. *)
Lemma not_ltb_trans (x y z : float64) :
  IsNaN y = false ->
  ltb x y = false -> ltb y z = false -> ltb x z = false.
Proof.
  intros Hy H G.
  destruct (IsNaN x) eqn:Hx; [destruct x; try discriminate; reflexivity|].
  destruct (IsNaN z) eqn:Hz;
    [destruct z; try discriminate; apply ltb_nan_r|].
  apply (nltb_keys x y Hx Hy) in H. apply (nltb_keys y z Hy Hz) in G.
  destruct (ltb x z) eqn:E; [|reflexivity].
  apply (ltb_keys x z Hx Hz) in E. exfalso.
  destruct (key x) as [[a1 b1] c1], (key y) as [[a2 b2] c2],
    (key z) as [[a3 b3] c3].
  unfold klt in *. lia.
Qed.

End Growing.

Section ExtendFacts.

(** [Extend] never drops a point: the south-west corner only moves down
    and left, the north-east corner only up and right. *)
Lemma Extend_keeps (b : Bound) (p q : Point) :
  Contains b q = true -> Contains (Extend b p) q = true.
Proof.
  intros H. destruct (Contains b p) eqn:Hc.
  - rewrite (Extend_inside _ _ Hc). exact H.
  - rewrite (Extend_outside _ _ Hc). apply Contains_true in H.
    destruct H as (H1 & H2 & H3 & H4). apply Contains_true. simpl.
    repeat split; auto using ltb_Min_mono, ltb_Max_mono.
Qed.

Lemma Extend_no_nan (b : Bound) (p : Point) :
  no_nan b -> no_nan_point p -> no_nan (Extend b p).
Proof.
  intros (H1 & H2 & H3 & H4) [P1 P2]. destruct (Contains b p) eqn:Hc.
  - rewrite (Extend_inside _ _ Hc). repeat split; assumption.
  - rewrite (Extend_outside _ _ Hc). unfold no_nan; simpl.
    repeat split; auto using Min_not_nan, Max_not_nan.
Qed.

Lemma normalized_no_nan (b : Bound) : normalized b -> no_nan b.
Proof.
  intros [Hx Hy]. apply leb_nan in Hx, Hy. unfold no_nan. tauto.
Qed.

Lemma Extend_keeps_normalized (b : Bound) (p : Point) :
  normalized b -> no_nan_point p -> normalized (Extend b p).
Proof.
  intros Hn [P1 P2]. destruct (Contains b p) eqn:Hc.
  - rewrite (Extend_inside _ _ Hc). exact Hn.
  - rewrite (Extend_outside _ _ Hc).
    destruct (normalized_no_nan b Hn) as (N1 & N2 & N3 & N4).
    split; simpl.
    + apply (leb_trans _ (X p)); auto using Min_leb_r, Max_leb_r.
    + apply (leb_trans _ (Y p)); auto using Min_leb_r, Max_leb_r.
Qed.

End ExtendFacts.

(** X6. [Extend] grows the bound to include the point: afterwards the bound
    contains the point, and every point it contained before, for all float64
    values. *)
Theorem Extend_grows (b : Bound) (p : Point) :
  Contains (Extend b p) p = true /\
  (forall q, Contains b q = true -> Contains (Extend b p) q = true).
Proof.
  split; [apply Contains_Extend|]. intros q. apply Extend_keeps.
Qed.

(** X7. [Extend] by a point without NaN keeps the corners of a bound in
    order. *)
Theorem Extend_normalized (b : Bound) (p : Point) :
  normalized b -> no_nan_point p -> normalized (Extend b p).
Proof. apply Extend_keeps_normalized. Qed.

Lemma Extend_normalized_witness :
  normalized (NewBound (lit 0) (lit 1) (lit 0) (lit 1)) /\
  no_nan_point (mkPoint (lit 5) (lit (-3))) /\
  normalized (Extend (NewBound (lit 0) (lit 1) (lit 0) (lit 1))
                     (mkPoint (lit 5) (lit (-3)))).
Proof.
  assert (H1 : normalized (NewBound (lit 0) (lit 1) (lit 0) (lit 1)))
    by (split; reflexivity).
  assert (H2 : no_nan_point (mkPoint (lit 5) (lit (-3))))
    by (split; reflexivity).
  split; [exact H1|]. split; [exact H2|].
  exact (Extend_normalized _ _ H1 H2).
Defined.

Section UnionFacts.

Lemma no_nan_corners (b : Bound) :
  no_nan b ->
  no_nan_point (SouthWest b) /\ no_nan_point (NorthWest b) /\
  no_nan_point (SouthEast b) /\ no_nan_point (NorthEast b).
Proof.
  intros (H1 & H2 & H3 & H4). unfold no_nan_point; simpl. tauto.
Qed.

Lemma Union_keeps (b other : Bound) (q : Point) :
  Contains b q = true -> Contains (Union b other) q = true.
Proof. intros H. unfold Union. auto using Extend_keeps. Qed.

(** The union contains the four corners of the other bound. *)
Lemma Union_corners (b other : Bound) :
  Contains (Union b other) (SouthWest other) = true /\
  Contains (Union b other) (NorthEast other) = true.
Proof.
  unfold Union. split.
  - auto using Extend_keeps, Contains_Extend.
  - apply Contains_Extend.
Qed.

Lemma Union_keeps_other (b other : Bound) (q : Point) :
  no_nan other ->
  Contains other q = true -> Contains (Union b other) q = true.
Proof.
  intros (N1 & N2 & N3 & N4) H.
  destruct (Union_corners b other) as [Hsw Hne].
  apply Contains_true in H, Hsw, Hne. simpl in Hsw, Hne.
  destruct H as (H1 & H2 & H3 & H4).
  destruct Hsw as (S1 & _ & S3 & _), Hne as (_ & E2 & _ & E4).
  apply Contains_true. repeat split.
  - apply (not_ltb_trans _ (Y (sw other))); assumption.
  - apply (not_ltb_trans _ (Y (ne other))); assumption.
  - apply (not_ltb_trans _ (X (sw other))); assumption.
  - apply (not_ltb_trans _ (X (ne other))); assumption.
Qed.

Lemma Union_keeps_normalized (b other : Bound) :
  normalized b -> no_nan other -> normalized (Union b other).
Proof.
  intros Hn Ho. destruct (no_nan_corners other Ho) as (C1 & C2 & C3 & C4).
  unfold Union. auto using Extend_keeps_normalized.
Qed.

End UnionFacts.

Section UnionSelf.

(** A bound with its corners in order contains its four corners. *)
Lemma normalized_own_corners (b : Bound) :
  normalized b ->
  Contains b (SouthWest b) = true /\ Contains b (NorthWest b) = true /\
  Contains b (SouthEast b) = true /\ Contains b (NorthEast b) = true.
Proof.
  intros [Hx Hy].
  repeat split; apply Contains_true; simpl;
    repeat split; auto using ltb_irrefl, leb_not_ltb.
Qed.

(** The union of a bound with itself keeps every point of the bound. *)
Lemma Union_self_keeps (b : Bound) (q : Point) :
  Contains b q = true -> Contains (Union_self b) q = true.
Proof. intros H. unfold Union_self. cbv zeta. auto using Extend_keeps. Qed.

(** On a bound with its corners in order the union with itself changes
    nothing, whether the corners are read before or during the call. *)
Lemma Union_self_normalized (b : Bound) :
  normalized b -> Union_self b = b /\ Union b b = b.
Proof.
  intros H. destruct (normalized_own_corners b H) as (H1 & H2 & H3 & H4).
  unfold Union_self, Union. cbv zeta.
  rewrite !(Extend_inside b _ H1), !(Extend_inside b _ H2),
    !(Extend_inside b _ H3), !(Extend_inside b _ H4).
  split; reflexivity.
Qed.

(** On a malformed bound the two differ: from sw = (1, 1) and ne = (0, 0)
    the first [Extend] of b.Union(b) makes both corners (1, 1), and the
    other three corners are then that point. *)
Lemma Union_self_malformed :
  let b := {| sw := mkPoint (lit 1) (lit 1); ne := mkPoint (lit 0) (lit 0) |} in
  (Union_self b =
   {| sw := mkPoint (lit 1) (lit 1); ne := mkPoint (lit 1) (lit 1) |}) /\
  (Union b b =
   {| sw := mkPoint (lit 0) (lit 0); ne := mkPoint (lit 1) (lit 1) |}).
Proof. split; vm_compute; reflexivity. Qed.

End UnionSelf.

(** X8. [Union] contains every point that the receiver contains, and, when
    no corner of the other bound is NaN, every point that the other bound
    contains. *)
Theorem Union_contains_both (b other : Bound) :
  (forall q, Contains b q = true -> Contains (Union b other) q = true) /\
  (no_nan other ->
   forall q, Contains other q = true -> Contains (Union b other) q = true).
Proof.
  split.
  - intros q. apply Union_keeps.
  - intros Ho q. apply Union_keeps_other. exact Ho.
Qed.

Lemma Union_contains_both_witness :
  no_nan (NewBound (lit 5) (lit 6) (lit 5) (lit 6)) /\
  Contains (NewBound (lit 5) (lit 6) (lit 5) (lit 6))
           (mkPoint (lit 6) (lit 5)) = true /\
  Contains (Union (NewBound (lit 0) (lit 1) (lit 0) (lit 1))
                  (NewBound (lit 5) (lit 6) (lit 5) (lit 6)))
           (mkPoint (lit 6) (lit 5)) = true.
Proof.
  assert (H1 : no_nan (NewBound (lit 5) (lit 6) (lit 5) (lit 6)))
    by (repeat split; reflexivity).
  assert (H2 : Contains (NewBound (lit 5) (lit 6) (lit 5) (lit 6))
                        (mkPoint (lit 6) (lit 5)) = true) by reflexivity.
  split; [exact H1|]. split; [exact H2|].
  exact (proj2 (Union_contains_both
                  (NewBound (lit 0) (lit 1) (lit 0) (lit 1))
                  (NewBound (lit 5) (lit 6) (lit 5) (lit 6))) H1 _ H2).
Defined.

(** X9. [Union] with a bound without NaN keeps the corners of the receiver
    in order. *)
Theorem Union_normalized (b other : Bound) :
  normalized b -> no_nan other -> normalized (Union b other).
Proof. apply Union_keeps_normalized. Qed.

Lemma Union_normalized_witness :
  normalized (NewBound (lit 0) (lit 1) (lit 0) (lit 1)) /\
  no_nan (NewBound (lit 5) (lit 6) (lit 5) (lit 6)) /\
  normalized (Union (NewBound (lit 0) (lit 1) (lit 0) (lit 1))
                    (NewBound (lit 5) (lit 6) (lit 5) (lit 6))).
Proof.
  assert (H1 : normalized (NewBound (lit 0) (lit 1) (lit 0) (lit 1)))
    by (split; reflexivity).
  assert (H2 : no_nan (NewBound (lit 5) (lit 6) (lit 5) (lit 6)))
    by (repeat split; reflexivity).
  split; [exact H1|]. split; [exact H2|].
  exact (Union_normalized _ _ H1 H2).
Defined.

Section SmallestBox.

Lemma leb_Min_glb (m a p : float64) :
  leb m a = true -> leb m p = true -> leb m (Min a p) = true.
Proof. intros H G. fcases m; fcases a; fcases p; fcmp_nan. Qed.

Lemma leb_Max_lub (m a p : float64) :
  leb a m = true -> leb p m = true -> leb (Max a p) m = true.
Proof. intros H G. fcases m; fcases a; fcases p; fcmp_nan. Qed.

Lemma leb_antisym (x y : float64) :
  leb x y = true -> leb y x = true -> eqb x y = true.
Proof. intros H G. fcases x; fcases y; fcmp_nan. Qed.

Lemma eqb_sym (x y : float64) : eqb x y = eqb y x.
Proof. fcases x; fcases y; fcmp_nan. Qed.

Lemma eqb_trans (x y z : float64) :
  eqb x y = true -> eqb y z = true -> eqb x z = true.
Proof.
  intros H G. apply eqb_true in H, G. apply eqb_true.
  destruct H as (Hx & Hy & H), G as (_ & Hz & G). repeat split; auto.
  destruct (key x) as [[a1 b1] c1], (key y) as [[a2 b2] c2],
    (key z) as [[a3 b3] c3].
  unfold keq in *. lia.
Qed.

Lemma eqb_leb (x y : float64) : eqb x y = true -> leb x y = true.
Proof. intros H. fcases x; fcases y; fcmp_nan. Qed.

Lemma Min_comm_eqb (x y : float64) :
  IsNaN x = false -> IsNaN y = false -> eqb (Min x y) (Min y x) = true.
Proof. intros Hx Hy. fcases x; fcases y; fcmp_nan. Qed.

Lemma Max_comm_eqb (x y : float64) :
  IsNaN x = false -> IsNaN y = false -> eqb (Max x y) (Max y x) = true.
Proof. intros Hx Hy. fcases x; fcases y; fcmp_nan. Qed.

Lemma leb_refl (x : float64) : IsNaN x = false -> leb x x = true.
Proof. intros H. fcases x; fcmp_nan. Qed.

(** [Extend] moves each side outwards, and no further than the point. *)
Lemma Extend_sides (b : Bound) (p : Point) (w s e n : float64) :
  no_nan b -> no_nan_point p ->
  leb w (X (sw b)) = true -> leb w (X p) = true ->
  leb s (Y (sw b)) = true -> leb s (Y p) = true ->
  leb (X (ne b)) e = true -> leb (X p) e = true ->
  leb (Y (ne b)) n = true -> leb (Y p) n = true ->
  (leb (X (sw (Extend b p))) (X (sw b)) = true /\
   leb w (X (sw (Extend b p))) = true) /\
  (leb (Y (sw (Extend b p))) (Y (sw b)) = true /\
   leb s (Y (sw (Extend b p))) = true) /\
  (leb (X (ne b)) (X (ne (Extend b p))) = true /\
   leb (X (ne (Extend b p))) e = true) /\
  (leb (Y (ne b)) (Y (ne (Extend b p))) = true /\
   leb (Y (ne (Extend b p))) n = true).
Proof.
  intros (N1 & N2 & N3 & N4) [P1 P2] W1 W2 S1 S2 E1 E2 Nn1 Nn2.
  destruct (Contains b p) eqn:Hc.
  - rewrite (Extend_inside _ _ Hc). auto 10 using leb_refl.
  - rewrite (Extend_outside _ _ Hc). simpl.
    auto 10 using Min_leb_l, Max_leb_l, leb_Min_glb, leb_Max_lub.
Qed.

End SmallestBox.

(** The box of the two bounds: the minima of the south-west corners and
    the maxima of the north-east corners. *)
Definition hull (a b : Bound) : Bound :=
  {| sw := mkPoint (Min (X (sw a)) (X (sw b))) (Min (Y (sw a)) (Y (sw b)));
     ne := mkPoint (Max (X (ne a)) (X (ne b))) (Max (Y (ne a)) (Y (ne b))) |}.

(** The bound lies in the box [w, e] x [s, n], and the point too. *)
Definition inside_box (w s e n : float64) (b : Bound) : Prop :=
  leb w (X (sw b)) = true /\ leb s (Y (sw b)) = true /\
  leb (X (ne b)) e = true /\ leb (Y (ne b)) n = true.

Definition point_in_box (w s e n : float64) (p : Point) : Prop :=
  leb w (X p) = true /\ leb s (Y p) = true /\
  leb (X p) e = true /\ leb (Y p) n = true.

(** The first bound reaches at least as far as the second on each side. *)
Definition covers (u a : Bound) : Prop :=
  leb (X (sw u)) (X (sw a)) = true /\ leb (Y (sw u)) (Y (sw a)) = true /\
  leb (X (ne a)) (X (ne u)) = true /\ leb (Y (ne a)) (Y (ne u)) = true.

Section Hull.

Lemma Extend_inside_box (w s e n : float64) (b : Bound) (p : Point) :
  no_nan b -> no_nan_point p ->
  inside_box w s e n b -> point_in_box w s e n p ->
  inside_box w s e n (Extend b p) /\ covers (Extend b p) b.
Proof.
  intros Hb Hp (B1 & B2 & B3 & B4) (P1 & P2 & P3 & P4).
  destruct (Extend_sides b p w s e n Hb Hp B1 P1 B2 P2 B3 P3 B4 P4)
    as ((A1 & A2) & (A3 & A4) & (A5 & A6) & (A7 & A8)).
  unfold inside_box, covers. tauto.
Qed.

Lemma covers_trans (u v a : Bound) : covers u v -> covers v a -> covers u a.
Proof.
  intros (U1 & U2 & U3 & U4) (V1 & V2 & V3 & V4).
  unfold covers. eauto 10 using leb_trans.
Qed.

Lemma hull_box (a b : Bound) :
  let h := hull a b in
  normalized a -> normalized b ->
  inside_box (X (sw h)) (Y (sw h)) (X (ne h)) (Y (ne h)) a /\
  point_in_box (X (sw h)) (Y (sw h)) (X (ne h)) (Y (ne h)) (SouthWest b) /\
  point_in_box (X (sw h)) (Y (sw h)) (X (ne h)) (Y (ne h)) (NorthWest b) /\
  point_in_box (X (sw h)) (Y (sw h)) (X (ne h)) (Y (ne h)) (SouthEast b) /\
  point_in_box (X (sw h)) (Y (sw h)) (X (ne h)) (Y (ne h)) (NorthEast b).
Proof.
  intros h Ha Hb.
  destruct (normalized_no_nan a Ha) as (A1 & A2 & A3 & A4).
  destruct (normalized_no_nan b Hb) as (B1 & B2 & B3 & B4).
  destruct Ha as [Hax Hay], Hb as [Hbx Hby].
  assert (W : leb (X (sw h)) (X (sw b)) = true) by (apply Min_leb_r; auto).
  assert (S : leb (Y (sw h)) (Y (sw b)) = true) by (apply Min_leb_r; auto).
  assert (E : leb (X (ne b)) (X (ne h)) = true) by (apply Max_leb_r; auto).
  assert (N : leb (Y (ne b)) (Y (ne h)) = true) by (apply Max_leb_r; auto).
  unfold inside_box, point_in_box; simpl.
  repeat split; eauto using Min_leb_l, Max_leb_l, leb_trans.
Qed.

(** The union lies in the hull, and reaches as far as both bounds. *)
Lemma Union_hull (a b : Bound) :
  let h := hull a b in
  normalized a -> normalized b ->
  inside_box (X (sw h)) (Y (sw h)) (X (ne h)) (Y (ne h)) (Union a b) /\
  covers (Union a b) a /\ covers (Union a b) b.
Proof.
  intros h Ha Hb.
  destruct (hull_box a b Ha Hb) as (I0 & P1 & P2 & P3 & P4).
  pose proof (normalized_no_nan a Ha) as Na.
  pose proof (normalized_no_nan b Hb) as Nb.
  destruct (no_nan_corners b Nb) as (C1 & C2 & C3 & C4).
  unfold Union.
  destruct (Extend_inside_box _ _ _ _ a _ Na C1 I0 P1) as [I1 K1].
  pose proof (Extend_no_nan a _ Na C1) as N1.
  destruct (Extend_inside_box _ _ _ _ _ _ N1 C2 I1 P2) as [I2 K2].
  pose proof (Extend_no_nan _ _ N1 C2) as N2.
  destruct (Extend_inside_box _ _ _ _ _ _ N2 C3 I2 P3) as [I3 K3].
  pose proof (Extend_no_nan _ _ N2 C3) as N3.
  destruct (Extend_inside_box _ _ _ _ _ _ N3 C4 I3 P4) as [I4 K4].
  pose proof (Extend_no_nan _ _ N3 C4) as N4.
  split; [exact I4|]. split.
  - eauto using covers_trans.
  - destruct (Union_corners a b) as [Hsw Hne]. unfold Union in Hsw, Hne.
    apply Contains_true in Hsw, Hne. simpl in Hsw, Hne.
    destruct Hsw as (S1 & _ & S3 & _), Hne as (_ & E2 & _ & E4).
    destruct N4 as (U1 & U2 & U3 & U4), Nb as (B1 & B2 & B3 & B4).
    unfold covers. auto using not_ltb_leb.
Qed.

Lemma Union_Equals_hull (a b : Bound) :
  normalized a -> normalized b -> Equals (Union a b) (hull a b) = true.
Proof.
  intros Ha Hb.
  destruct (Union_hull a b Ha Hb)
    as ((I1 & I2 & I3 & I4) & (A1 & A2 & A3 & A4) & (B1 & B2 & B3 & B4)).
  unfold Equals, PointOps.Equals. simpl in *.
  rewrite (leb_antisym (X (sw (Union a b))) _), (leb_antisym (Y (sw (Union a b))) _),
    (leb_antisym (X (ne (Union a b))) _), (leb_antisym (Y (ne (Union a b))) _);
    auto using leb_Min_glb, leb_Max_lub.
Qed.

Lemma hull_comm (a b : Bound) :
  no_nan a -> no_nan b -> Equals (hull a b) (hull b a) = true.
Proof.
  intros (A1 & A2 & A3 & A4) (B1 & B2 & B3 & B4).
  unfold Equals, PointOps.Equals, hull; simpl.
  rewrite !Min_comm_eqb, !Max_comm_eqb by assumption. reflexivity.
Qed.

Lemma Equals_trans (a b c : Bound) :
  Equals a b = true -> Equals b c = true -> Equals a c = true.
Proof.
  unfold Equals, PointOps.Equals. intros H G.
  destruct (eqb (X (sw a)) (X (sw b))) eqn:E1; try discriminate.
  destruct (eqb (Y (sw a)) (Y (sw b))) eqn:E2; try discriminate.
  destruct (eqb (X (ne a)) (X (ne b))) eqn:E3; try discriminate.
  destruct (eqb (Y (ne a)) (Y (ne b))) eqn:E4; try discriminate.
  destruct (eqb (X (sw b)) (X (sw c))) eqn:F1; try discriminate.
  destruct (eqb (Y (sw b)) (Y (sw c))) eqn:F2; try discriminate.
  destruct (eqb (X (ne b)) (X (ne c))) eqn:F3; try discriminate.
  destruct (eqb (Y (ne b)) (Y (ne c))) eqn:F4; try discriminate.
  rewrite (eqb_trans _ _ _ E1 F1), (eqb_trans _ _ _ E2 F2),
    (eqb_trans _ _ _ E3 F3), (eqb_trans _ _ _ E4 F4). reflexivity.
Qed.

Lemma Equals_sym (a b : Bound) : Equals a b = Equals b a.
Proof.
  unfold Equals, PointOps.Equals.
  rewrite (eqb_sym (X (sw a))), (eqb_sym (Y (sw a))),
    (eqb_sym (X (ne a))), (eqb_sym (Y (ne a))). reflexivity.
Qed.

End Hull.

(** X10. [Union] of two bounds with their corners in order is the smallest
    box that holds both: its south-west corner is the minimum of the two
    south-west corners and its north-east corner the maximum of the two
    north-east corners, up to [==]. *)
Theorem Union_is_hull (a b : Bound) :
  normalized a -> normalized b -> Equals (Union a b) (hull a b) = true.
Proof. apply Union_Equals_hull. Qed.

Lemma Union_is_hull_witness :
  normalized (NewBound (lit 0) (lit 1) (lit 0) (lit 1)) /\
  normalized (NewBound (lit 5) (lit 6) (lit (-2)) (lit 6)) /\
  Equals (Union (NewBound (lit 0) (lit 1) (lit 0) (lit 1))
                (NewBound (lit 5) (lit 6) (lit (-2)) (lit 6)))
         (hull (NewBound (lit 0) (lit 1) (lit 0) (lit 1))
               (NewBound (lit 5) (lit 6) (lit (-2)) (lit 6))) = true.
Proof.
  assert (H1 : normalized (NewBound (lit 0) (lit 1) (lit 0) (lit 1)))
    by (split; reflexivity).
  assert (H2 : normalized (NewBound (lit 5) (lit 6) (lit (-2)) (lit 6)))
    by (split; reflexivity).
  split; [exact H1|]. split; [exact H2|].
  exact (Union_is_hull _ _ H1 H2).
Defined.

(** X11. [Union] is commutative up to [Equals] on bounds with their corners
    in order. *)
Theorem Union_comm (a b : Bound) :
  normalized a -> normalized b -> Equals (Union a b) (Union b a) = true.
Proof.
  intros Ha Hb.
  apply (Equals_trans _ (hull a b)); [apply Union_Equals_hull; assumption|].
  apply (Equals_trans _ (hull b a));
    [apply hull_comm; apply normalized_no_nan; assumption|].
  rewrite Equals_sym. apply Union_Equals_hull; assumption.
Qed.

Lemma Union_comm_witness :
  normalized (NewBound (lit 0) (lit 1) (lit 0) (lit 1)) /\
  normalized (NewBound (lit 5) (lit 6) (lit (-2)) (lit 6)) /\
  Equals (Union (NewBound (lit 0) (lit 1) (lit 0) (lit 1))
                (NewBound (lit 5) (lit 6) (lit (-2)) (lit 6)))
         (Union (NewBound (lit 5) (lit 6) (lit (-2)) (lit 6))
                (NewBound (lit 0) (lit 1) (lit 0) (lit 1))) = true.
Proof.
  assert (H1 : normalized (NewBound (lit 0) (lit 1) (lit 0) (lit 1)))
    by (split; reflexivity).
  assert (H2 : normalized (NewBound (lit 5) (lit 6) (lit (-2)) (lit 6)))
    by (split; reflexivity).
  split; [exact H1|]. split; [exact H2|].
  exact (Union_comm _ _ H1 H2).
Defined.

(* ------------------------------------------------------------------ *)
(** ** Bounds from two corners *)

Section FromPoints.

Lemma Contains_point_bound (c : Point) :
  Contains {| sw := PointOps.Clone c; ne := PointOps.Clone c |} c = true.
Proof.
  apply Contains_true. simpl. repeat split; apply ltb_irrefl.
Qed.

Lemma not_ltb_eqb (x y : float64) :
  IsNaN x = false -> IsNaN y = false ->
  ltb x y = false -> ltb y x = false -> eqb x y = true.
Proof. intros Hx Hy H G. fcases x; fcases y; fcmp_nan. Qed.

Lemma eqb_Min_r (c o : float64) :
  eqb c o = true -> eqb c (Min o c) = true.
Proof. intros H. fcases c; fcases o; fcmp_nan. Qed.

Lemma eqb_Max_r (c o : float64) :
  eqb c o = true -> eqb c (Max o c) = true.
Proof. intros H. fcases c; fcases o; fcmp_nan. Qed.

(** The bound of two corners is, up to [==], the bound that [NewBound]
    builds from their coordinates. *)
Lemma NewBoundFromPoints_Equals_NewBound (c o : Point) :
  no_nan_point c -> no_nan_point o ->
  Equals (NewBoundFromPoints c o) (NewBound (X c) (X o) (Y c) (Y o)) = true.
Proof.
  intros [C1 C2] [O1 O2]. unfold NewBoundFromPoints.
  set (b0 := {| sw := PointOps.Clone c; ne := PointOps.Clone c |}).
  destruct (Contains b0 o) eqn:Hc.
  - rewrite (Extend_inside _ _ Hc). apply Contains_true in Hc.
    simpl in Hc. destruct Hc as (H1 & H2 & H3 & H4).
    assert (Ex : eqb (X c) (X o) = true) by (apply not_ltb_eqb; assumption).
    assert (Ey : eqb (Y c) (Y o) = true) by (apply not_ltb_eqb; assumption).
    unfold Equals, PointOps.Equals, NewBound; simpl.
    rewrite (eqb_Min_r _ _ Ex), (eqb_Min_r _ _ Ey),
      (eqb_Max_r _ _ Ex), (eqb_Max_r _ _ Ey). reflexivity.
  - rewrite (Extend_outside _ _ Hc).
    unfold Equals, PointOps.Equals, NewBound; simpl.
    rewrite !Min_comm_eqb, !Max_comm_eqb by assumption. reflexivity.
Qed.

Lemma Equals_normalized (a b : Bound) :
  Equals a b = true -> normalized b -> normalized a.
Proof.
  unfold Equals, PointOps.Equals. intros H [Hx Hy].
  destruct (eqb (X (sw a)) (X (sw b))) eqn:E1; try discriminate.
  destruct (eqb (Y (sw a)) (Y (sw b))) eqn:E2; try discriminate.
  destruct (eqb (X (ne a)) (X (ne b))) eqn:E3; try discriminate.
  destruct (eqb (Y (ne a)) (Y (ne b))) eqn:E4; try discriminate.
  rewrite eqb_sym in E3, E4.
  split.
  - apply (leb_trans _ (X (sw b))); [apply eqb_leb; exact E1|].
    apply (leb_trans _ (X (ne b))); [exact Hx|apply eqb_leb; exact E3].
  - apply (leb_trans _ (Y (sw b))); [apply eqb_leb; exact E2|].
    apply (leb_trans _ (Y (ne b))); [exact Hy|apply eqb_leb; exact E4].
Qed.

Lemma NewBound_corners_Equals (b : Bound) :
  normalized b ->
  Equals (NewBound (X (ne b)) (X (sw b)) (Y (sw b)) (Y (ne b))) b = true /\
  Equals (NewBound (X (ne b)) (X (sw b)) (Y (ne b)) (Y (sw b))) b = true /\
  Equals (NewBound (X (sw b)) (X (ne b)) (Y (ne b)) (Y (sw b))) b = true.
Proof.
  intros [Hx Hy]. unfold Equals, PointOps.Equals, NewBound; simpl.
  destruct (leb_nan _ _ Hx) as [N1 N2], (leb_nan _ _ Hy) as [N3 N4].
  assert (Ax : eqb (Min (X (ne b)) (X (sw b))) (X (sw b)) = true).
  { apply (eqb_trans _ (Min (X (sw b)) (X (ne b))));
      [apply Min_comm_eqb; assumption | apply Min_eqb_l; assumption]. }
  assert (Ay : eqb (Min (Y (ne b)) (Y (sw b))) (Y (sw b)) = true).
  { apply (eqb_trans _ (Min (Y (sw b)) (Y (ne b))));
      [apply Min_comm_eqb; assumption | apply Min_eqb_l; assumption]. }
  assert (Bx : eqb (Max (X (ne b)) (X (sw b))) (X (ne b)) = true).
  { apply (eqb_trans _ (Max (X (sw b)) (X (ne b))));
      [apply Max_comm_eqb; assumption | apply Max_eqb_r; assumption]. }
  assert (By : eqb (Max (Y (ne b)) (Y (sw b))) (Y (ne b)) = true).
  { apply (eqb_trans _ (Max (Y (sw b)) (Y (ne b))));
      [apply Max_comm_eqb; assumption | apply Max_eqb_r; assumption]. }
  rewrite Ax, Ay, Bx, By.
  rewrite (Min_eqb_l _ _ Hx), (Min_eqb_l _ _ Hy),
    (Max_eqb_r _ _ Hx), (Max_eqb_r _ _ Hy).
  repeat split; reflexivity.
Qed.

End FromPoints.

(** X12. [NewBoundFromPoints] returns a bound that contains both corners it
    was given, for all float64 values. *)
Theorem NewBoundFromPoints_contains (corner oppositeCorner : Point) :
  Contains (NewBoundFromPoints corner oppositeCorner) corner = true /\
  Contains (NewBoundFromPoints corner oppositeCorner) oppositeCorner = true.
Proof.
  unfold NewBoundFromPoints. split.
  - apply Extend_keeps, Contains_point_bound.
  - apply Contains_Extend.
Qed.

(** X13. For corners without NaN, [NewBoundFromPoints] agrees with [NewBound]
    on the coordinates of the two corners, up to [==], and the corners of
    the result are in order. *)
Theorem NewBoundFromPoints_as_NewBound (c o : Point) :
  no_nan_point c -> no_nan_point o ->
  Equals (NewBoundFromPoints c o) (NewBound (X c) (X o) (Y c) (Y o)) = true /\
  normalized (NewBoundFromPoints c o).
Proof.
  intros Hc Ho.
  pose proof (NewBoundFromPoints_Equals_NewBound c o Hc Ho) as E.
  split; [exact E|].
  apply (Equals_normalized _ _ E).
  destruct Hc as [C1 C2], Ho as [O1 O2].
  split; simpl; apply Min_leb_Max; assumption.
Qed.

Lemma NewBoundFromPoints_as_NewBound_witness :
  no_nan_point (mkPoint (lit 3) (lit (-1))) /\
  no_nan_point (mkPoint (lit (-2)) (lit 4)) /\
  Equals (NewBoundFromPoints (mkPoint (lit 3) (lit (-1)))
                             (mkPoint (lit (-2)) (lit 4)))
         (NewBound (lit 3) (lit (-2)) (lit (-1)) (lit 4)) = true /\
  normalized (NewBoundFromPoints (mkPoint (lit 3) (lit (-1)))
                                 (mkPoint (lit (-2)) (lit 4))).
Proof.
  assert (H1 : no_nan_point (mkPoint (lit 3) (lit (-1))))
    by (split; reflexivity).
  assert (H2 : no_nan_point (mkPoint (lit (-2)) (lit 4)))
    by (split; reflexivity).
  split; [exact H1|]. split; [exact H2|].
  exact (NewBoundFromPoints_as_NewBound _ _ H1 H2).
Defined.

(** X14. The two corners can be any diagonal, in any order: from its ne/sw,
    se/nw or nw/se corners [NewBoundFromPoints] rebuilds a bound with its
    corners in order, up to [==]. *)
Theorem NewBoundFromPoints_any_diagonal (b : Bound) :
  normalized b ->
  Equals (NewBoundFromPoints (NorthEast b) (SouthWest b)) b = true /\
  Equals (NewBoundFromPoints (SouthEast b) (NorthWest b)) b = true /\
  Equals (NewBoundFromPoints (NorthWest b) (SouthEast b)) b = true.
Proof.
  intros Hn.
  destruct (no_nan_corners b (normalized_no_nan b Hn)) as (C1 & C2 & C3 & C4).
  destruct (NewBound_corners_Equals b Hn) as (E1 & E2 & E3).
  repeat split.
  - apply (Equals_trans _ _ _
             (NewBoundFromPoints_Equals_NewBound _ _ C4 C1)). exact E2.
  - apply (Equals_trans _ _ _
             (NewBoundFromPoints_Equals_NewBound _ _ C3 C2)). exact E1.
  - apply (Equals_trans _ _ _
             (NewBoundFromPoints_Equals_NewBound _ _ C2 C3)). exact E3.
Qed.

Lemma NewBoundFromPoints_any_diagonal_witness :
  normalized (NewBound (lit 0) (lit 2) (lit 0) (lit 1)) /\
  Equals (NewBoundFromPoints
            (NorthEast (NewBound (lit 0) (lit 2) (lit 0) (lit 1)))
            (SouthWest (NewBound (lit 0) (lit 2) (lit 0) (lit 1))))
         (NewBound (lit 0) (lit 2) (lit 0) (lit 1)) = true /\
  Equals (NewBoundFromPoints
            (SouthEast (NewBound (lit 0) (lit 2) (lit 0) (lit 1)))
            (NorthWest (NewBound (lit 0) (lit 2) (lit 0) (lit 1))))
         (NewBound (lit 0) (lit 2) (lit 0) (lit 1)) = true /\
  Equals (NewBoundFromPoints
            (NorthWest (NewBound (lit 0) (lit 2) (lit 0) (lit 1)))
            (SouthEast (NewBound (lit 0) (lit 2) (lit 0) (lit 1))))
         (NewBound (lit 0) (lit 2) (lit 0) (lit 1)) = true.
Proof.
  assert (H : normalized (NewBound (lit 0) (lit 2) (lit 0) (lit 1)))
    by (split; reflexivity).
  split; [exact H|].
  exact (NewBoundFromPoints_any_diagonal _ H).
Defined.

(* ------------------------------------------------------------------ *)
(** ** Empty, Equals, Contains and Pad at the edges *)

Section Edges.

Lemma leb_false_ltb (x y : float64) :
  IsNaN x = false -> IsNaN y = false -> leb x y = false -> ltb y x = true.
Proof. intros Hx Hy H. fcases x; fcases y; fcmp_nan. Qed.

Lemma ltb_leb (x y : float64) : ltb x y = true -> leb x y = true.
Proof. intros H. fcases x; fcases y; fcmp_nan. Qed.

Lemma ltb_leb_false (x y : float64) : ltb x y = true -> leb y x = false.
Proof. intros H. fcases x; fcases y; fcmp_nan. Qed.

Lemma eqb_refl_iff (x : float64) : eqb x x = true <-> IsNaN x = false.
Proof.
  split; intros H.
  - fcases x; try reflexivity. discriminate.
  - fcases x; fcmp_nan.
Qed.

Lemma sub_zero (x : float64) : sub x (lit 0) = x.
Proof. fcases x; reflexivity. Qed.

Lemma add_zero_eqb (x : float64) :
  IsNaN x = false -> eqb (add x (lit 0)) x = true.
Proof.
  intros H. fcases x; try discriminate; try reflexivity;
    change (add (S754_finite ?s m e) (lit 0)) with (S754_finite s m e);
    apply eqb_refl_iff; reflexivity.
Qed.

End Edges.

(** X15. [Empty] answers true for every malformed bound (an axis with sw >
    ne), whatever the other axis holds. *)
Theorem Empty_malformed (b : Bound) : malformed b -> Empty b = true.
Proof.
  intros [H|H]; unfold Empty; rewrite (ltb_leb _ _ H);
    rewrite ?orb_true_r; reflexivity.
Qed.

Lemma Empty_malformed_witness :
  malformed (Pad (NewBound (lit 0) (lit 1) (lit 0) (lit 1)) (lit (-1))) /\
  Empty (Pad (NewBound (lit 0) (lit 1) (lit 0) (lit 1)) (lit (-1))) = true.
Proof.
  assert (H : malformed
                (Pad (NewBound (lit 0) (lit 1) (lit 0) (lit 1)) (lit (-1))))
    by (left; reflexivity).
  split; [exact H|]. exact (Empty_malformed _ H).
Defined.

(** X16. On a bound without NaN, [Empty] answers false exactly when sw is
    strictly below ne on both axes. *)
Theorem Empty_false_iff (b : Bound) :
  no_nan b ->
  (Empty b = false <->
   ltb (X (sw b)) (X (ne b)) = true /\ ltb (Y (sw b)) (Y (ne b)) = true).
Proof.
  intros (N1 & N2 & N3 & N4). unfold Empty. rewrite orb_false_iff. split.
  - intros [H G]. split; apply leb_false_ltb; assumption.
  - intros [H G]. split; apply ltb_leb_false; assumption.
Qed.

Lemma Empty_false_iff_witness :
  no_nan (NewBound (lit 0) (lit 1) (lit 0) (lit 1)) /\
  (Empty (NewBound (lit 0) (lit 1) (lit 0) (lit 1)) = false <->
   ltb (X (sw (NewBound (lit 0) (lit 1) (lit 0) (lit 1))))
       (X (ne (NewBound (lit 0) (lit 1) (lit 0) (lit 1)))) = true /\
   ltb (Y (sw (NewBound (lit 0) (lit 1) (lit 0) (lit 1))))
       (Y (ne (NewBound (lit 0) (lit 1) (lit 0) (lit 1)))) = true).
Proof.
  assert (H : no_nan (NewBound (lit 0) (lit 1) (lit 0) (lit 1)))
    by (repeat split; reflexivity).
  split; [exact H|]. exact (Empty_false_iff _ H).
Defined.

(** X17. A bound with a NaN coordinate on each axis is neither [Empty] nor
    equal to itself. *)
Theorem Empty_Equals_nan (b : Bound) :
  (IsNaN (X (sw b)) = true \/ IsNaN (X (ne b)) = true) ->
  (IsNaN (Y (sw b)) = true \/ IsNaN (Y (ne b)) = true) ->
  Empty b = false /\ Equals b b = false.
Proof.
  intros Hx Hy. unfold Empty, Equals, PointOps.Equals.
  destruct b as [[sx sy] [nx ny]]; simpl in *.
  destruct Hx as [Hx|Hx], Hy as [Hy|Hy];
    repeat match goal with
      | H : IsNaN ?x = true |- _ => destruct x; try discriminate H; clear H
      end;
    rewrite ?leb_nan_l, ?leb_nan_r, ?eqb_nan_l, ?eqb_nan_r;
    rewrite ?andb_false_r; split; reflexivity.
Qed.

Lemma Empty_Equals_nan_witness :
  (IsNaN (X (sw (NewBound NaN (lit 1) NaN (lit 1)))) = true \/
   IsNaN (X (ne (NewBound NaN (lit 1) NaN (lit 1)))) = true) /\
  (IsNaN (Y (sw (NewBound NaN (lit 1) NaN (lit 1)))) = true \/
   IsNaN (Y (ne (NewBound NaN (lit 1) NaN (lit 1)))) = true) /\
  Empty (NewBound NaN (lit 1) NaN (lit 1)) = false /\
  Equals (NewBound NaN (lit 1) NaN (lit 1))
         (NewBound NaN (lit 1) NaN (lit 1)) = false.
Proof.
  assert (H1 : IsNaN (X (sw (NewBound NaN (lit 1) NaN (lit 1)))) = true \/
               IsNaN (X (ne (NewBound NaN (lit 1) NaN (lit 1)))) = true)
    by (left; reflexivity).
  assert (H2 : IsNaN (Y (sw (NewBound NaN (lit 1) NaN (lit 1)))) = true \/
               IsNaN (Y (ne (NewBound NaN (lit 1) NaN (lit 1)))) = true)
    by (left; reflexivity).
  split; [exact H1|]. split; [exact H2|].
  exact (Empty_Equals_nan _ H1 H2).
Defined.

(** X18. [Equals] is reflexive exactly on the bounds without NaN; it is
    symmetric and transitive on all bounds. *)
Theorem Equals_equivalence :
  (forall b, Equals b b = true <-> no_nan b) /\
  (forall a b, Equals a b = Equals b a) /\
  (forall a b c, Equals a b = true -> Equals b c = true ->
                 Equals a c = true).
Proof.
  split; [|split; [exact Equals_sym | exact Equals_trans]].
  intros b. unfold Equals, PointOps.Equals, no_nan.
  rewrite <- !eqb_refl_iff.
  destruct (eqb (X (sw b)) (X (sw b))), (eqb (Y (sw b)) (Y (sw b))),
    (eqb (X (ne b)) (X (ne b))), (eqb (Y (ne b)) (Y (ne b))); simpl;
    intuition discriminate.
Qed.

(** X19. A point whose coordinates are NaN is inside every bound, malformed
    bounds included. *)
Theorem Contains_nan_point (b : Bound) : Contains b (mkPoint NaN NaN) = true.
Proof.
  apply Contains_true. simpl.
  rewrite !ltb_nan_l, !ltb_nan_r. repeat split.
Qed.

(** X20. Padding a bound without NaN by zero leaves its south-west corner
    as it is, the sign of a zero included, and the bound equal to itself;
    the north-east corner is equal up to [==] only, since -0 + 0 is
    +0. *)
Theorem Pad_zero (b : Bound) :
  no_nan b ->
  sw (Pad b (lit 0)) = sw b /\ Equals (Pad b (lit 0)) b = true.
Proof.
  intros (N1 & N2 & N3 & N4). unfold Pad; simpl. rewrite !sub_zero. split.
  - destruct (sw b); reflexivity.
  - unfold Equals, PointOps.Equals; simpl.
    rewrite !add_zero_eqb by assumption.
    rewrite (proj2 (eqb_refl_iff _) N1), (proj2 (eqb_refl_iff _) N2).
    reflexivity.
Qed.

Lemma Pad_zero_witness :
  no_nan (NewBound (lit 0) (lit 1) (lit 0) (lit 1)) /\
  sw (Pad (NewBound (lit 0) (lit 1) (lit 0) (lit 1)) (lit 0)) =
  sw (NewBound (lit 0) (lit 1) (lit 0) (lit 1)) /\
  Equals (Pad (NewBound (lit 0) (lit 1) (lit 0) (lit 1)) (lit 0))
         (NewBound (lit 0) (lit 1) (lit 0) (lit 1)) = true.
Proof.
  assert (H : no_nan (NewBound (lit 0) (lit 1) (lit 0) (lit 1)))
    by (repeat split; reflexivity).
  split; [exact H|]. exact (Pad_zero _ H).
Defined.

(* ------------------------------------------------------------------ *)
(** ** More on Intersects and map tiles *)

Lemma Intersects_sound_witness :
  normalized (NewBound (lit 0) (lit 2) (lit 4) (lit 5)) /\
  normalized (NewBound (lit 1) (lit 5) (lit 0) (lit 10)) /\
  Intersects (NewBound (lit 0) (lit 2) (lit 4) (lit 5))
             (NewBound (lit 1) (lit 5) (lit 0) (lit 10)) = true /\
  overlaps (NewBound (lit 0) (lit 2) (lit 4) (lit 5))
           (NewBound (lit 1) (lit 5) (lit 0) (lit 10)) = true.
Proof.
  assert (H1 : normalized (NewBound (lit 0) (lit 2) (lit 4) (lit 5)))
    by (split; reflexivity).
  assert (H2 : normalized (NewBound (lit 1) (lit 5) (lit 0) (lit 10)))
    by (split; reflexivity).
  assert (H3 : Intersects (NewBound (lit 0) (lit 2) (lit 4) (lit 5))
                          (NewBound (lit 1) (lit 5) (lit 0) (lit 10)) = true)
    by reflexivity.
  split; [exact H1|]. split; [exact H2|]. split; [exact H3|].
  exact (Intersects_sound _ _ H1 H2 H3).
Defined.

Lemma NewBoundFromMapTile_zoom_64_witness :
  is_uint64 7 /\ is_uint64 9 /\ 64 <= 70 /\
  NewBoundFromMapTile linear_inverse 7 9 70 = Panics tile_panic.
Proof.
  assert (H1 : is_uint64 7) by (unfold is_uint64; lia).
  assert (H2 : is_uint64 9) by (unfold is_uint64; lia).
  assert (H3 : 64 <= 70) by lia.
  split; [exact H1|]. split; [exact H2|]. split; [exact H3|].
  exact (NewBoundFromMapTile_zoom_64 linear_inverse 7 9 70 H1 H2 H3).
Defined.

(** The bound of two projected corners. *)
Definition corner_box (c1 c2 : float64 * float64) : Bound :=
  {| sw := mkPoint (Min (fst c1) (fst c2)) (Min (snd c1) (snd c2));
     ne := mkPoint (Max (fst c1) (fst c2)) (Max (snd c1) (snd c2)) |}.

Section TilePixels.

Lemma shl_uint64_scale (x z : Z) :
  0 <= z <= 31 -> 0 <= x <= 2 ^ z ->
  shl_uint64 x (31 - z) = x * 2 ^ (31 - z) /\ x * 2 ^ (31 - z) <= 2 ^ 31.
Proof.
  intros Hz Hx. unfold shl_uint64.
  destruct (Z.ltb_spec (31 - z) 64); [|lia].
  rewrite Z.shiftl_mul_pow2 by lia.
  assert (Hp : 0 < 2 ^ (31 - z)) by (apply Z.pow_pos_nonneg; lia).
  assert (Hq : 2 ^ z * 2 ^ (31 - z) = 2 ^ 31).
  { rewrite <- Z.pow_add_r by lia. f_equal. lia. }
  assert (Hle : x * 2 ^ (31 - z) <= 2 ^ 31) by nia.
  split; [|exact Hle]. apply Z.mod_small. split; [nia|].
  assert (2 ^ 31 < 2 ^ 64) by (apply Z.pow_lt_mono_r; lia). lia.
Qed.

Lemma tile_bound_corner_box inv (x y shift : Z) :
  tile_bound inv x y shift =
  corner_box (inv (shl_uint64 x shift) (shl_uint64 y shift) 31)
             (inv (shl_uint64 (add_uint64 x 1) shift)
                  (shl_uint64 (add_uint64 y 1) shift) 31).
Proof.
  unfold tile_bound, corner_box.
  destruct (inv (shl_uint64 x shift) _ _) as [lng1 lat1].
  destruct (inv (shl_uint64 (add_uint64 x 1) shift) _ _) as [lng2 lat2].
  reflexivity.
Qed.

End TilePixels.

(** X21. Up to zoom 31 a tile in range is scaled without overflow: its two
    corners are projected from the level-31 pixels (x, y) * 2^(31 - zoom)
    and (x + 1, y + 1) * 2^(31 - zoom), which do not exceed 2^31. *)
Theorem NewBoundFromMapTile_pixels
  (inv : Z -> Z -> Z -> float64 * float64) (x y z : Z) :
  0 <= z <= 31 -> 0 <= x < 2 ^ z -> 0 <= y < 2 ^ z ->
  let k := 2 ^ (31 - z) in
  NewBoundFromMapTile inv x y z =
  Returns (corner_box (inv (x * k) (y * k) 31)
                      (inv ((x + 1) * k) ((y + 1) * k) 31)) /\
  (x + 1) * k <= 2 ^ 31 /\ (y + 1) * k <= 2 ^ 31.
Proof.
  intros Hz Hx Hy k.
  assert (Hb : 2 ^ z <= 2 ^ 31) by (apply Z.pow_le_mono_r; lia).
  assert (Hm : shl_uint64 1 z = 2 ^ z) by (apply shl_uint64_one; lia).
  assert (H64 : 2 ^ 31 < 2 ^ 64) by (apply Z.pow_lt_mono_r; lia).
  rewrite (NewBoundFromMapTile_in_range inv x y z) by lia.
  replace (Z.max 0 (31 - z)) with (31 - z) by lia.
  rewrite tile_bound_corner_box.
  assert (Ax : add_uint64 x 1 = x + 1)
    by (unfold add_uint64; apply Z.mod_small; lia).
  assert (Ay : add_uint64 y 1 = y + 1)
    by (unfold add_uint64; apply Z.mod_small; lia).
  rewrite Ax, Ay.
  destruct (shl_uint64_scale x z) as [Sx _]; [lia|lia|].
  destruct (shl_uint64_scale y z) as [Sy _]; [lia|lia|].
  destruct (shl_uint64_scale (x + 1) z) as [Sx1 Bx]; [lia|lia|].
  destruct (shl_uint64_scale (y + 1) z) as [Sy1 By]; [lia|lia|].
  rewrite Sx, Sy, Sx1, Sy1. auto.
Qed.

Lemma NewBoundFromMapTile_pixels_witness :
  0 <= 2 <= 31 /\ 0 <= 1 < 2 ^ 2 /\ 0 <= 3 < 2 ^ 2 /\
  NewBoundFromMapTile linear_inverse 1 3 2 =
  Returns (corner_box
             (linear_inverse (1 * 2 ^ (31 - 2)) (3 * 2 ^ (31 - 2)) 31)
             (linear_inverse ((1 + 1) * 2 ^ (31 - 2))
                             ((3 + 1) * 2 ^ (31 - 2)) 31)) /\
  (1 + 1) * 2 ^ (31 - 2) <= 2 ^ 31 /\ (3 + 1) * 2 ^ (31 - 2) <= 2 ^ 31.
Proof.
  assert (H1 : 0 <= 2 <= 31) by lia.
  assert (H2 : 0 <= 1 < 2 ^ 2) by lia.
  assert (H3 : 0 <= 3 < 2 ^ 2) by lia.
  split; [exact H1|]. split; [exact H2|]. split; [exact H3|].
  exact (NewBoundFromMapTile_pixels linear_inverse 1 3 2 H1 H2 H3).
Defined.

(* ------------------------------------------------------------------ *)
(** ** The two GeoHash decoders *)

(** The index of a rune in the alphabet, or -1. *)
Definition alphabet_index (r : rune) : Z :=
  strings_Index alphabet (string_of_rune r).

(** One bisection, on the axis whose turn it is. *)
Definition bisect_flag (st : ranges * bool) (zero_bit : bool)
  : ranges * bool :=
  let '(r, even) := st in
  ((if even then bisect_lng zero_bit r else bisect_lat zero_bit r),
   negb even).

(** The bits of a hash, as the string decoder reads them: for each
    character the five bits of its index, the highest first; [true] stands
    for a bit that is 0. *)
Definition index_flags (i : Z) : list bool :=
  map (fun j => Z.land i j =? 0) char_masks.

Definition hash_flags (hash : list rune) : list bool :=
  flat_map (fun r => index_flags (alphabet_index r)) hash.

(** The state of the string decoder after a hash. *)
Definition decode_state (hash : list rune) : ranges * bool :=
  fold_left rune_step hash (world, true).

(** The integer of a hash string: five bits for each character, the
    first character in the highest bits. *)
Definition pack_hash (hash : list rune) : Z :=
  fold_left (fun acc r => Z.lor (Z.shiftl acc 5) (alphabet_index r)) hash 0.

(** The flags that [n] passes of the integer decoder read from the cursor
    [i] on. *)
Fixpoint cursor_flags (n : nat) (h i : Z) : list bool :=
  match n with
  | O => []
  | S n' =>
      let i1 := Z.shiftr i 1 in
      let i2 := Z.shiftr i1 1 in
      (Z.land h i1 =? 0) :: (Z.land h i2 =? 0) :: cursor_flags n' h i2
  end.

(** The bits k-1, ..., 0 of [h], the highest first. *)
Fixpoint msb_flags (h : Z) (k : nat) : list bool :=
  match k with
  | O => []
  | S k' => negb (Z.testbit h (Z.of_nat k')) :: msb_flags h k'
  end.

(** What the pass after the last bit does to a cell: it halves it towards
    the south, and towards the west as well when the bits came in
    pairs. *)
Definition extra_pass (pairs : bool) (r : ranges) : ranges :=
  if pairs then bisect_lat true (bisect_lng true r)
  else bisect_lat true r.

Definition ranges_tuple (r : ranges)
  : float64 * float64 * float64 * float64 :=
  (lngMin r, lngMax r, latMin r, latMax r).

Section Decoders.

Lemma bit_step_flag (i : Z) (st : ranges * bool) (j : Z) :
  bit_step i st j = bisect_flag st (Z.land i j =? 0).
Proof. destruct st as [r even]. reflexivity. Qed.

Lemma rune_step_flags (st : ranges * bool) (r : rune) :
  rune_step st r =
  fold_left bisect_flag (index_flags (alphabet_index r)) st.
Proof.
  unfold rune_step, index_flags, alphabet_index.
  generalize char_masks. intros js. revert st.
  induction js as [|j js IH]; intros st; simpl.
  - reflexivity.
  - rewrite bit_step_flag. apply IH.
Qed.

Lemma decode_flags (hash : list rune) (st : ranges * bool) :
  fold_left rune_step hash st = fold_left bisect_flag (hash_flags hash) st.
Proof.
  revert st. induction hash as [|r hash IH]; intros st.
  - reflexivity.
  - change (hash_flags (r :: hash))
      with (index_flags (alphabet_index r) ++ hash_flags hash).
    rewrite fold_left_app, <- rune_step_flags. cbn [fold_left]. apply IH.
Qed.

(** The axis alternates with every bit. *)
Lemma fold_bisect_parity (l : list bool) (r : ranges) (e : bool) :
  snd (fold_left bisect_flag l (r, e)) =
  if Nat.even (List.length l) then e else negb e.
Proof.
  revert r e. induction l as [|z l IH]; intros r e.
  - reflexivity.
  - cbn [fold_left bisect_flag]. rewrite IH.
    change (List.length (z :: l)) with (S (List.length l)).
    rewrite Nat.even_succ, <- Nat.negb_even.
    destruct (Nat.even (List.length l)), e; reflexivity.
Qed.

Lemma hash_flags_length (hash : list rune) :
  List.length (hash_flags hash) = (5 * List.length hash)%nat.
Proof.
  induction hash as [|r hash IH]; [reflexivity|].
  unfold hash_flags in *. cbn [flat_map]. rewrite length_app, IH.
  unfold index_flags. rewrite length_map, char_masks_eq. simpl. lia.
Qed.

Lemma decode_state_parity (hash : list rune) :
  snd (decode_state hash) = Nat.even (List.length hash).
Proof.
  unfold decode_state. rewrite decode_flags, fold_bisect_parity.
  rewrite hash_flags_length, Nat.even_mul. simpl. 
  destruct (Nat.even (List.length hash)); reflexivity.
Qed.

End Decoders.

(** X22. The string decoder alternates the axis with every bit, across the
    characters: after a hash of n characters the next bit is a longitude bit
    exactly when n is even. *)
Theorem geoHash_axis_parity (hash : list rune) :
  snd (fold_left rune_step hash (world, true)) =
  Nat.even (List.length hash).
Proof. apply decode_state_parity. Qed.

Section IntAndString.

Lemma land_pow2_flag (h m : Z) :
  0 <= m -> (Z.land h (2 ^ m) =? 0) = negb (Z.testbit h m).
Proof.
  intros Hm.
  assert (E : Z.land h (2 ^ m) = if Z.testbit h m then 2 ^ m else 0).
  { apply Z.bits_inj'. intros n Hn.
    rewrite Z.land_spec, Z.pow2_bits_eqb by lia.
    destruct (Z.eqb_spec m n) as [->|Hne].
    - destruct (Z.testbit h n) eqn:T; simpl.
      + rewrite Z.pow2_bits_true by lia. reflexivity.
      + rewrite Z.bits_0. reflexivity.
    - rewrite andb_false_r. destruct (Z.testbit h m).
      + rewrite Z.pow2_bits_false by lia. reflexivity.
      + rewrite Z.bits_0. reflexivity. }
  rewrite E. destruct (Z.testbit h m); simpl.
  - apply Z.eqb_neq. apply Z.pow_nonzero; lia.
  - reflexivity.
Qed.

Lemma index_flags_msb (i : Z) : index_flags i = msb_flags i 5.
Proof.
  unfold index_flags. rewrite char_masks_eq. cbn [map msb_flags].
  change (Z.of_nat 4) with 4. change (Z.of_nat 3) with 3.
  change (Z.of_nat 2) with 2. change (Z.of_nat 1) with 1.
  change (Z.of_nat 0) with 0.
  rewrite <- (land_pow2_flag i 4), <- (land_pow2_flag i 3),
    <- (land_pow2_flag i 2), <- (land_pow2_flag i 1),
    <- (land_pow2_flag i 0) by lia.
  reflexivity.
Qed.

Lemma cursor_flags_zero (n : nat) (h : Z) :
  cursor_flags n h 0 = repeat true (2 * n).
Proof.
  induction n as [|n IH]; [reflexivity|].
  cbn [cursor_flags]. cbv zeta. rewrite !Z.shiftr_0_l.
  rewrite IH, Z.land_0_r.
  replace (2 * S n)%nat with (S (S (2 * n))) by lia. reflexivity.
Qed.

Lemma shiftr_pow2_once (k : nat) :
  Z.shiftr (2 ^ Z.of_nat (S k)) 1 = 2 ^ Z.of_nat k.
Proof.
  rewrite Z.shiftr_div_pow2 by lia. rewrite Nat2Z.inj_succ, Z.pow_succ_r by lia.
  change (2 ^ 1) with 2. rewrite Z.mul_comm. apply Z.div_mul. discriminate.
Qed.

(** From a single bit at position k the passes read the bits k-1, ..., 0
    of the hash, and zero bits from then on. *)
Lemma cursor_flags_pow2 (n : nat) (h : Z) :
  forall k : nat, (k <= 2 * n)%nat ->
  cursor_flags n h (2 ^ Z.of_nat k) =
  msb_flags h k ++ repeat true (2 * n - k).
Proof.
  induction n as [|n IH]; intros k Hk.
  - assert (k = 0%nat) as -> by lia. reflexivity.
  - cbn [cursor_flags]. cbv zeta.
    destruct k as [|[|k]].
    + change (Z.shiftr (2 ^ Z.of_nat 0) 1) with 0.
      change (Z.shiftr 0 1) with 0.
      rewrite cursor_flags_zero, Z.land_0_r.
      replace (2 * S n - 0)%nat with (S (S (2 * n))) by lia. reflexivity.
    + change (Z.shiftr (2 ^ Z.of_nat 1) 1) with (2 ^ 0).
      change (Z.shiftr (2 ^ 0) 1) with 0.
      rewrite cursor_flags_zero, Z.land_0_r, land_pow2_flag by lia.
      replace (2 * S n - 1)%nat with (S (2 * n)) by lia. reflexivity.
    + rewrite !shiftr_pow2_once, !land_pow2_flag by lia.
      rewrite (IH k) by lia.
      replace (2 * S n - S (S k))%nat with (2 * n - k)%nat by lia.
      reflexivity.
Qed.

(** What the loop returns is the fold of the flags its passes read. *)
Lemma geoHashInt_loop_flags (fuel : nat) :
  forall (h i : Z) (r : ranges) (ps : list (Z * Z)) r' ps',
    geoHashInt_loop fuel h i r ps = Some (r', ps') ->
    exists n : nat,
      List.length ps' = (List.length ps + n)%nat /\
      r' = fst (fold_left bisect_flag (cursor_flags n h i) (r, true)).
Proof.
  induction fuel as [|fuel IH]; intros h i r ps r' ps' H.
  - simpl in H. destruct (Z.eqb_spec i 0); [|discriminate].
    inversion H; subst. exists 0%nat. split; [lia|reflexivity].
  - destruct (Z.eqb_spec i 0) as [->|Hi].
    + rewrite geoHashInt_loop_zero in H. inversion H; subst.
      exists 0%nat. split; [lia|reflexivity].
    + rewrite (geoHashInt_loop_step _ _ _ _ _ Hi) in H. cbv zeta in H.
      apply IH in H. destruct H as (n & Hlen & Hr).
      exists (S n). split.
      * rewrite Hlen, length_app. simpl. lia.
      * rewrite Hr. reflexivity.
Qed.

Lemma pad_count (k : nat) :
  (2 * (k / 2 + 1) - k = if Nat.even k then 2 else 1)%nat.
Proof.
  destruct (Nat.even k) eqn:E.
  - apply Nat.even_spec in E. destruct E as [m ->].
    rewrite (Nat.mul_comm 2 m), Nat.div_mul by discriminate. lia.
  - assert (O : Nat.odd k = true)
      by (rewrite <- Nat.negb_even, E; reflexivity).
    apply Nat.odd_spec in O. destruct O as [m ->].
    replace (2 * m + 1)%nat with (1 + m * 2)%nat by lia.
    rewrite Nat.div_add by discriminate. simpl. lia.
Qed.

Lemma half_nat (k : nat) : Z.to_nat (Z.of_nat k / 2) = (k / 2)%nat.
Proof.
  rewrite <- (Nat2Z.id (k / 2)). f_equal. rewrite Nat2Z.inj_div. reflexivity.
Qed.

(** The integer decoder on [bits] bits, as a fold over the bits of the
    hash: the bits bits-1, ..., 0, and then the pass after the last
    bit. *)
Lemma geoHashInt_run_flags (fuel : nat) (h : Z) (k : nat) :
  (k <= 62)%nat -> (32 <= fuel)%nat ->
  exists r ps,
    geoHashInt_run fuel h (Z.of_nat k) = Some (r, ps) /\
    r = fst (fold_left bisect_flag
               (msb_flags h k ++ repeat true (if Nat.even k then 2 else 1))
               (world, true)).
Proof.
  intros Hk Hfuel.
  assert (Hhalf : (k / 2 <= 31)%nat)
    by (pose proof (Nat.div_mod_eq k 2); lia).
  destruct (geoHashInt_loop_pow2 fuel (Z.of_nat k) h world [])
    as (r & ps & Hrun & Hlen); [lia | rewrite half_nat; lia |].
  rewrite half_nat in Hlen.
  change (List.length (@nil (Z * Z))) with 0%nat in Hlen.
  exists r, ps. unfold geoHashInt_run. rewrite shl_int64_one by lia.
  split; [exact Hrun|].
  apply geoHashInt_loop_flags in Hrun. destruct Hrun as (n & Hn & Hr).
  change (List.length (@nil (Z * Z))) with 0%nat in Hn.
  assert (n = (k / 2 + 1)%nat) as -> by lia.
  rewrite cursor_flags_pow2 in Hr.
  - rewrite pad_count in Hr. exact Hr.
  - pose proof (pad_count k) as P.
    pose proof (Nat.div_mod_eq k 2) as D.
    pose proof (Nat.mod_upper_bound k 2) as M. lia.
Qed.

(** The bits of a packed hash are the bits of its characters. *)
Lemma testbit_small (i m : Z) :
  0 <= i < 32 -> 5 <= m -> Z.testbit i m = false.
Proof.
  intros Hi Hm. destruct (Z.eq_dec i 0) as [->|Hz]; [apply Z.bits_0|].
  apply Z.bits_above_log2; [lia|].
  assert (Z.log2 i < 5) by (apply Z.log2_lt_pow2; lia). lia.
Qed.

Lemma msb_flags_ext (h h' : Z) (k : nat) :
  (forall m, 0 <= m < Z.of_nat k -> Z.testbit h m = Z.testbit h' m) ->
  msb_flags h k = msb_flags h' k.
Proof.
  induction k as [|k IH]; intros H; [reflexivity|].
  cbn [msb_flags]. rewrite (H (Z.of_nat k)) by lia.
  rewrite IH; [reflexivity|]. intros m Hm. apply H. lia.
Qed.

Lemma msb_flags_push (acc i : Z) (a : nat) :
  0 <= i < 32 ->
  msb_flags (Z.lor (Z.shiftl acc 5) i) (a + 5) =
  msb_flags acc a ++ msb_flags i 5.
Proof.
  intros Hi. induction a as [|a IH].
  - change (0 + 5)%nat with 5%nat. change (msb_flags acc 0) with (@nil bool).
    cbn [app]. apply msb_flags_ext. intros m Hm.
    rewrite Z.lor_spec, Z.shiftl_spec by lia.
    rewrite (Z.testbit_neg_r acc) by lia. reflexivity.
  - cbn [Nat.add msb_flags app]. rewrite IH. f_equal.
    rewrite Z.lor_spec, Z.shiftl_spec by lia.
    rewrite (testbit_small i) by lia. rewrite orb_false_r.
    f_equal. f_equal. lia.
Qed.

Definition valid_rune (r : rune) : Prop := 0 <= alphabet_index r < 32.

Lemma pack_hash_snoc (hash : list rune) (r : rune) :
  pack_hash (hash ++ [r]) =
  Z.lor (Z.shiftl (pack_hash hash) 5) (alphabet_index r).
Proof. unfold pack_hash. rewrite fold_left_app. reflexivity. Qed.

Lemma hash_flags_snoc (hash : list rune) (r : rune) :
  hash_flags (hash ++ [r]) =
  hash_flags hash ++ index_flags (alphabet_index r).
Proof.
  unfold hash_flags. rewrite flat_map_app. cbn [flat_map].
  rewrite app_nil_r. reflexivity.
Qed.

Lemma pack_hash_flags (hash : list rune) :
  Forall valid_rune hash ->
  msb_flags (pack_hash hash) (5 * List.length hash) = hash_flags hash.
Proof.
  induction hash as [|r hash IH] using rev_ind; intros Hv.
  - reflexivity.
  - apply Forall_app in Hv. destruct Hv as [Hv Hr].
    inversion Hr as [|? ? Hr' _]; subst.
    rewrite pack_hash_snoc, hash_flags_snoc, length_app.
    replace (5 * (List.length hash + List.length [r]))%nat
      with (5 * List.length hash + 5)%nat by (simpl; lia).
    rewrite (msb_flags_push _ _ _ Hr'), (IH Hv), index_flags_msb.
    reflexivity.
Qed.

Lemma pack_hash_range (hash : list rune) :
  Forall valid_rune hash ->
  0 <= pack_hash hash < 2 ^ (5 * Z.of_nat (List.length hash)).
Proof.
  induction hash as [|r hash IH] using rev_ind; intros Hv.
  - cbv. split; [discriminate | reflexivity].
  - apply Forall_app in Hv. destruct Hv as [Hv Hr].
    inversion Hr as [|? ? Hr' _]; subst. specialize (IH Hv).
    rewrite pack_hash_snoc, length_app. unfold valid_rune in Hr'.
    set (p := pack_hash hash) in *. set (i := alphabet_index r) in *.
    set (n := Z.of_nat (List.length hash)) in *.
    assert (E : Z.lor (Z.shiftl p 5) i = p * 32 + i).
    { rewrite <- Z.lxor_lor.
      - rewrite <- Z.add_nocarry_lxor.
        + rewrite Z.shiftl_mul_pow2 by lia. reflexivity.
        + apply Z.bits_inj'. intros m Hm.
          rewrite Z.land_spec, Z.shiftl_spec, Z.bits_0 by lia.
          destruct (Z.lt_ge_cases m 5).
          * rewrite Z.testbit_neg_r by lia. reflexivity.
          * rewrite (testbit_small i) by lia. apply andb_false_r.
      - apply Z.bits_inj'. intros m Hm.
        rewrite Z.land_spec, Z.shiftl_spec, Z.bits_0 by lia.
        destruct (Z.lt_ge_cases m 5).
        + rewrite Z.testbit_neg_r by lia. reflexivity.
        + rewrite (testbit_small i) by lia. apply andb_false_r. }
    rewrite E.
    replace (5 * Z.of_nat (List.length hash + List.length [r]))
      with (5 * n + 5)
      by (unfold n; rewrite Nat2Z.inj_add; simpl List.length; lia).
    rewrite Z.pow_add_r by lia. change (2 ^ 5) with 32. lia.
Qed.

End IntAndString.

(** X23. The integer decoder against the string decoder. For a hash of at
    most 12 characters of the alphabet, packed five bits to a character,
    [geoHashInt2ranges] on all its bits returns the cell of [geoHash2ranges]
    after the pass that follows the last bit: halved towards the south, and
    towards the west as well when the number of characters is even. *)
Theorem geoHashInt_of_string (fuel : nat) (hash : list rune) :
  Forall valid_rune hash -> (List.length hash <= 12)%nat ->
  (32 <= fuel)%nat ->
  0 <= pack_hash hash < 2 ^ 63 /\
  geoHash2ranges hash = ranges_tuple (fst (decode_state hash)) /\
  geoHashInt2ranges fuel (pack_hash hash) (5 * Z.of_nat (List.length hash)) =
  Some (ranges_tuple
          (extra_pass (Nat.even (List.length hash))
                      (fst (decode_state hash)))).
Proof.
  intros Hv Hlen Hfuel. split; [|split].
  - pose proof (pack_hash_range hash Hv) as [H0 H1]. split; [exact H0|].
    assert (2 ^ (5 * Z.of_nat (List.length hash)) <= 2 ^ 60)
      by (apply Z.pow_le_mono_r; lia).
    assert (2 ^ 60 < 2 ^ 63) by reflexivity. lia.
  - unfold geoHash2ranges, decode_state.
    destruct (fold_left rune_step hash (world, true)) as [r e]. reflexivity.
  - destruct (geoHashInt_run_flags fuel (pack_hash hash)
                (5 * List.length hash)) as (r & ps & Hrun & Hr);
      [lia | exact Hfuel |].
    replace (Z.of_nat (5 * List.length hash))
      with (5 * Z.of_nat (List.length hash)) in Hrun by lia.
    unfold geoHashInt2ranges. rewrite Hrun. f_equal. f_equal.
    rewrite (pack_hash_flags hash Hv), fold_left_app in Hr.
    rewrite <- decode_flags in Hr. fold (decode_state hash) in Hr.
    pose proof (decode_state_parity hash) as P.
    rewrite Nat.even_mul in Hr. cbn [Nat.even orb] in Hr.
    destruct (decode_state hash) as [rs es]. cbn [snd fst] in *.
    rewrite Hr, P.
    destruct (Nat.even (List.length hash)); reflexivity.
Qed.

Lemma geoHashInt_of_string_witness :
  Forall valid_rune (runes "u4pru") /\
  (List.length (runes "u4pru") <= 12)%nat /\ (32 <= 32)%nat /\
  0 <= pack_hash (runes "u4pru") < 2 ^ 63 /\
  geoHash2ranges (runes "u4pru") =
  ranges_tuple (fst (decode_state (runes "u4pru"))) /\
  geoHashInt2ranges 32 (pack_hash (runes "u4pru"))
                    (5 * Z.of_nat (List.length (runes "u4pru"))) =
  Some (ranges_tuple
          (extra_pass (Nat.even (List.length (runes "u4pru")))
                      (fst (decode_state (runes "u4pru"))))).
Proof.
  assert (H1 : Forall valid_rune (runes "u4pru"))
    by (repeat constructor; discriminate).
  assert (H2 : (List.length (runes "u4pru") <= 12)%nat) by (simpl; lia).
  assert (H3 : (32 <= 32)%nat) by lia.
  split; [exact H1|]. split; [exact H2|]. split; [exact H3|].
  exact (geoHashInt_of_string 32 (runes "u4pru") H1 H2 H3).
Defined.

Lemma geoHashInt_passes_witness :
  0 <= 60 <= 62 /\ (32 <= 32)%nat /\
  exists r passes,
    geoHashInt_run 32 5 60 = Some (r, passes) /\
    Z.of_nat (List.length passes) = 60 / 2 + 1.
Proof.
  assert (H1 : 0 <= 60 <= 62) by lia.
  assert (H2 : (32 <= 32)%nat) by lia.
  split; [exact H1|]. split; [exact H2|].
  exact (geoHashInt_passes 32 5 60 H1 H2).
Defined.

Lemma geoHashInt_no_pass_witness :
  (- 2 ^ 63 <= -1 < 0 \/ 64 <= -1 < 2 ^ 63) /\
  geoHashInt_run 0 5 (-1) = Some (world, []).
Proof.
  assert (H : - 2 ^ 63 <= -1 < 0 \/ 64 <= -1 < 2 ^ 63) by (left; lia).
  split; [exact H|]. exact (geoHashInt_no_pass 0 5 (-1) H).
Defined.
